(** * ConsumerProducerTask: a bounded queue between producers and consumers,
      and the table that records the first arrival of every number.

    The development embeds [ConsumerProducerTask.cpp]:
    - [TRandomData], [TStorage] and [TStorage::ProcessNext] (the result table);
    - [TIntegerQueue::SaveIntoQueue] and [TIntegerQueue::GetFromQueue]
      (the queue, with the stop-token aware condition-variable wait);
    - the argument handling of [main].

    Every member function of the two classes takes its mutex for its whole
    body, and the only place where the mutex is released is the
    condition-variable wait at the start of the two queue functions.  A call
    is therefore modelled as one atomic transition that happens at the moment
    its wait (if any) returns; a call whose wait cannot return is [Blocked]. *)

From Stdlib Require Import ZArith Lia.
From stdpp Require Import base numbers list.

Local Open Scope Z_scope.

(** ** Machine integers and the clock *)

Module Platform.
(** [unsigned int] is 32 bits wide. *)
Definition UINT_MODULUS : Z := 2 ^ 32.
Definition UINT_MAX : Z := UINT_MODULUS - 1.
(** Conversion to [unsigned int]: reduction modulo [2^32]. *)
Definition to_uint (z : Z) : Z := z mod UINT_MODULUS.

(** [unsigned long] (the type of [TimeToGenerate]), taken 64 bits wide. *)
Definition ULONG_MODULUS : Z := 2 ^ 64.
Definition to_ulong (z : Z) : Z := z mod ULONG_MODULUS.

(** A [time_point] of [high_resolution_clock] is a tick count; the clock
    ticks in nanoseconds and [duration_cast<microseconds>] truncates
    towards zero. *)
Definition time_point : Type := Z.
Definition microseconds (ticks : Z) : Z := Z.quot ticks 1000.
End Platform.
Import Platform.

(** How a call ends: it returns, it has undefined behaviour (an access the
    language does not define), or it leaves by an exception. *)
Inductive result (A : Type) : Type :=
| Ok (a : A)
| Undefined
| Throws.
Arguments Ok {A} a.
Arguments Undefined {A}.
Arguments Throws {A}.

(** ** TRandomData *)

Record TRandomData : Type := mkRandomData {
  Number : Z;
  TimeToGenerate : Z;
  Order : Z
}.

(** [TRandomData() = default]: all members zero. *)
Definition TRandomData_default : TRandomData := mkRandomData 0 0 0.

(** ** TStorage *)

(** One line written to [std::cout] by [ProcessNext]. *)
Record log_line : Type := mkLogLine {
  log_thread : Z;
  log_number : Z;
  log_order : Z;
  log_elapsed : Z
}.

(** The members of [TStorage].  [StopSource] holds the stop state of the
    [std::stop_source]: [true] once a stop has been requested.  The mutex is
    implicit in the atomicity of the calls; [DigitsInN] only sets the width of
    the printed columns and is left out. *)
Record TStorage : Type := mkStorage {
  Storage : list TRandomData;
  StorageSize : Z;
  Counter : Z;
  StopSource : bool;
  Start : time_point
}.

(** [TStorage::TStorage(unsigned int storage_size)], entered at clock reading
    [now].  The body checks nothing and has no [throw]. *)
Definition TStorage_ctor (storage_size : Z) (now : time_point) : result TStorage :=
  Ok {| Storage := replicate (Z.to_nat storage_size) TRandomData_default;
        StorageSize := storage_size;
        Counter := 0;
        StopSource := false;
        Start := now |}.

(** [StopSource.get_token()] followed by [stop_requested()]. *)
Definition GetStopToken (s : TStorage) : bool := StopSource s.

(** [StopSource.request_stop()]: the stop state becomes (or stays) requested. *)
Definition request_stop (s : TStorage) : TStorage :=
  {| Storage := Storage s; StorageSize := StorageSize s; Counter := Counter s;
     StopSource := true; Start := Start s |}.

(** The body of the inner [if] of [ProcessNext]: the slot at [index] is
    written, the counter pre-incremented, a line printed and the timing
    baseline moved to [end_]. *)
Definition store_element (tid : Z) (end_ : time_point) (element : Z)
    (index : nat) (s : TStorage) : TStorage * list log_line :=
  let counter := to_uint (Counter s + 1) in
  let elapsed := to_ulong (microseconds (end_ - Start s)) in
  ({| Storage := <[index := {| Number := element;
                               TimeToGenerate := elapsed;
                               Order := counter |}]> (Storage s);
      StorageSize := StorageSize s;
      Counter := counter;
      StopSource := StopSource s;
      Start := end_ |},
   [ {| log_thread := tid; log_number := element;
        log_order := counter; log_elapsed := elapsed |} ]).

(** [void TStorage::ProcessNext(unsigned int element)], called by thread
    [tid]; [now] is what [high_resolution_clock::now()] returns should the
    call read the clock.  The result is the storage after the call and the
    lines it printed.  [Storage[index]] outside the vector is undefined. *)
Definition ProcessNext (tid : Z) (now : time_point) (element : Z)
    (s : TStorage) : result (TStorage * list log_line) :=
  if (0 <? element) && (element <=? StorageSize s) then
    let index := Z.to_nat (to_uint (element - 1)) in
    match Storage s !! index with
    | None => Undefined
    | Some slot =>
        let '(s1, out) :=
          if Number slot =? 0
          then store_element tid now element index s
          else (s, []) in
        if Counter s1 =? StorageSize s1
        then Ok (request_stop s1, out)
        else Ok (s1, out)
    end
  else Ok (s, []).

(** A call of [ProcessNext] with everything it reads from outside. *)
Record arrival : Type := mkArrival {
  arr_thread : Z;
  arr_clock : time_point;
  arr_element : Z
}.

Definition ProcessArrival (a : arrival) (s : TStorage)
    : result (TStorage * list log_line) :=
  ProcessNext (arr_thread a) (arr_clock a) (arr_element a) s.

(** A sequence of calls, one after the other, with all they printed. *)
Fixpoint ProcessAll (calls : list arrival) (s : TStorage)
    : result (TStorage * list log_line) :=
  match calls with
  | [] => Ok (s, [])
  | a :: rest =>
      match ProcessArrival a s with
      | Ok (s1, out1) =>
          match ProcessAll rest s1 with
          | Ok (s2, out2) => Ok (s2, out1 ++ out2)
          | Undefined => Undefined
          | Throws => Throws
          end
      | Undefined => Undefined
      | Throws => Throws
      end
  end.

(** Arrivals of plain values, for examples: thread 0, clock standing at 0. *)
Definition arrivals (values : list Z) : list arrival :=
  map (mkArrival 0 0) values.

(** A slot is filled when its [Number] is not the sentinel 0. *)
Definition filled (d : TRandomData) : Prop := Number d ≠ 0.

#[global] Instance filled_dec (d : TRandomData) : Decision (filled d).
Proof. unfold filled. apply _. Defined.

(** The [Order] members of the filled slots, in index order. *)
Definition orders (l : list TRandomData) : list Z :=
  Order <$> filter filled l.

(** The number of filled slots. *)
Definition filledCount (s : TStorage) : Z :=
  Z.of_nat (length (filter filled (Storage s))).

(** The slot of value [v], i.e. [Storage[v - 1]]. *)
Definition slot_of (v : Z) (s : TStorage) : option TRandomData :=
  Storage s !! Z.to_nat (v - 1).

(** ** Runs of the storage *)

(** Whether the slot of value [v] is filled. *)
Definition is_filled (v : Z) (s : TStorage) : bool :=
  match slot_of v s with
  | Some d => negb (Number d =? 0)
  | None => false
  end.

(** The state after the first arrival of [element] at clock reading [now]. *)
Definition recorded (now : time_point) (element : Z) (s : TStorage) : TStorage :=
  {| Storage := <[Z.to_nat (element - 1) :=
                    {| Number := element;
                       TimeToGenerate := to_ulong (microseconds (now - Start s));
                       Order := Counter s + 1 |}]> (Storage s);
     StorageSize := StorageSize s;
     Counter := Counter s + 1;
     StopSource := bool_decide (Counter s + 1 = StorageSize s);
     Start := now |}.

(** [s] is the storage after the calls [calls] on a table constructed with
    target size [N] at clock reading [t0]. *)
Definition reached (N : Z) (t0 : time_point) (calls : list arrival)
    (s : TStorage) : Prop :=
  ∃ s0 out, TStorage_ctor N t0 = Ok s0 ∧ ProcessAll calls s0 = Ok (s, out).

(** The storage before the first call and after every call. *)
Fixpoint trajectory (calls : list arrival) (s : TStorage)
    : result (list TStorage) :=
  match calls with
  | [] => Ok [s]
  | a :: rest =>
      match ProcessArrival a s with
      | Ok (s1, _) =>
          match trajectory rest s1 with
          | Ok tr => Ok (s :: tr)
          | Undefined => Undefined
          | Throws => Throws
          end
      | Undefined => Undefined
      | Throws => Throws
      end
  end.

(** How often the stop state goes from not requested to requested, and how
    often it goes back, along a history. *)
Fixpoint stop_requests (tr : list TStorage) : nat :=
  match tr with
  | s :: (s' :: _) as rest =>
      (if negb (StopSource s) && StopSource s' then 1 else 0)
      + stop_requests rest
  | _ => 0
  end%nat.

Fixpoint stop_resets (tr : list TStorage) : nat :=
  match tr with
  | s :: (s' :: _) as rest =>
      (if StopSource s && negb (StopSource s') then 1 else 0)
      + stop_resets rest
  | _ => 0
  end%nat.

(** ** The storage invariant *)

(** What holds of a storage of target size [N] between calls. *)
Record TStorage_inv (N : Z) (s : TStorage) : Prop := mkInv {
  inv_range : 0 ≤ N ≤ UINT_MAX;
  inv_size : StorageSize s = N;
  inv_length : length (Storage s) = Z.to_nat N;
  inv_numbers : ∀ (i : nat) d,
      Storage s !! i = Some d → Number d = 0 ∨ Number d = Z.of_nat i + 1;
  inv_counter : 0 ≤ Counter s;
  inv_orders : orders (Storage s) ≡ₚ seqZ 1 (Counter s);
  inv_stop : StopSource s = true ↔ 0 < Counter s ∧ Counter s = N
}.

(** ** TIntegerQueue *)

Module TIntegerQueue.

Definition MaxQueueSize : Z := 1000.

(** [std::queue<unsigned int> Queue]: the front is the head of the list. *)
Definition Queue : Type := list Z.

(** How a call of a queue function ends: it is still blocked in its wait,
    it returns a value and leaves the queue in a new state, or it has
    undefined behaviour. *)
Inductive outcome (A : Type) : Type :=
| Blocked
| Returns (a : A) (Q : Queue)
| UndefinedBehaviour.
Arguments Blocked {A}.
Arguments Returns {A} a Q.
Arguments UndefinedBehaviour {A}.

(** [std::condition_variable_any::wait(lock, stoken, pred)], which is
    [while (!stoken.stop_requested()) { if (pred()) return true; wait(lock); }
     return pred();]
    seen at one wake-up: [None] when the thread goes back to sleep, else
    the value returned. *)
Definition cv_wait (stop_requested pred : bool) : option bool :=
  if stop_requested then Some pred
  else if pred then Some true
  else None.

(** [void SaveIntoQueue(unsigned int element, std::stop_token st)].  The
    value returned by the wait is dropped, as in the source. *)
Definition SaveIntoQueue (element : Z) (st : bool) (Q : Queue) : outcome unit :=
  match cv_wait st (Z.of_nat (length Q) <? MaxQueueSize) with
  | None => Blocked
  | Some _ => Returns tt (Q ++ [element])
  end.

(** [unsigned int GetFromQueue(std::stop_token st)].  [Queue.front()] and
    [Queue.pop()] on an empty queue are undefined. *)
Definition GetFromQueue (st : bool) (Q : Queue) : outcome Z :=
  match cv_wait st (negb (bool_decide (Q = []))) with
  | None => Blocked
  | Some _ =>
      match Q with
      | [] => UndefinedBehaviour
      | element :: Q' => Returns element Q'
      end
  end.

End TIntegerQueue.
Import TIntegerQueue.

(** ** The queue and the storage together *)

(** The shared objects of [main]: [queue] and [storage]. *)
Record shared : Type := mkShared {
  queue : Queue;
  storage : TStorage
}.

(** The calls the worker threads make on the shared objects, each with the
    stop token of the storage:
    [queue.SaveIntoQueue(element, storage.GetStopToken())],
    [queue.GetFromQueue(storage.GetStopToken())] and
    [storage.ProcessNext(element)]. *)
Inductive operation : Type :=
| OpSave (element : Z)
| OpGet
| OpProcess (a : arrival).

(** One completed call; [None] when the call cannot complete in this state
    (it is blocked) or is undefined. *)
Definition perform (o : operation) (w : shared) : option shared :=
  match o with
  | OpSave element =>
      match SaveIntoQueue element (GetStopToken (storage w)) (queue w) with
      | Returns _ Q => Some {| queue := Q; storage := storage w |}
      | _ => None
      end
  | OpGet =>
      match GetFromQueue (GetStopToken (storage w)) (queue w) with
      | Returns _ Q => Some {| queue := Q; storage := storage w |}
      | _ => None
      end
  | OpProcess a =>
      match ProcessArrival a (storage w) with
      | Ok (s, _) => Some {| queue := queue w; storage := s |}
      | _ => None
      end
  end.

Fixpoint perform_all (ops : list operation) (w : shared) : option shared :=
  match ops with
  | [] => Some w
  | o :: rest =>
      match perform o w with
      | Some w1 => perform_all rest w1
      | None => None
      end
  end.

(** The shared objects as [main] constructs them. *)
Definition initial (N : Z) (t0 : time_point) : option shared :=
  match TStorage_ctor N t0 with
  | Ok s => Some {| queue := []; storage := s |}
  | _ => None
  end.

(** ** main *)

(** [TRandomizer]: the bounds of its distribution.  [GetNext] may return any
    value between them. *)
Record TRandomizer : Type := mkRandomizer {
  rzr_first : Z;
  rzr_last : Z
}.

Definition GetNext (rzr : TRandomizer) (v : Z) : Prop :=
  rzr_first rzr ≤ v ≤ rzr_last rzr.

(** What [main] does, as far as the target size is concerned. *)
Inductive main_event : Type :=
| PrintNoArguments
| PrintBadArgument (element_number : Z)
| PrintBadArgumentText
| ConstructQueue
| ConstructStorage (s : TStorage)
| ConstructRandomizer (rzr : TRandomizer)
| SpawnProducer
| SpawnConsumer.

(** The worker threads: [thread_number = 3] rounds of one producer and one
    consumer. *)
Definition spawn_threads : list main_event :=
  concat (replicate 3 [SpawnProducer; SpawnConsumer]).

(** [main], up to the point where the threads run.  [RAND_MAX] is the
    constant of [<cstdlib>]; [argv1] is [None] when [argc < 2], else the
    result of [std::stol(argv[1])]; [now] is the clock reading of the
    storage's constructor.  An exception inside the [try] block ends in the
    [catch (...)] handler. *)
Definition main (RAND_MAX : Z) (now : time_point) (argv1 : option (result Z))
    : list main_event :=
  match argv1 with
  | None => [PrintNoArguments]
  | Some (Ok element_number) =>
      if (element_number <=? 0) || (RAND_MAX <? element_number)
      then [PrintBadArgument element_number]
      else
        match TStorage_ctor (to_uint element_number) now with
        | Ok s =>
            [ConstructQueue; ConstructStorage s;
             ConstructRandomizer (mkRandomizer 1 (to_uint element_number))]
            ++ spawn_threads
        | _ => [ConstructQueue; PrintBadArgumentText]
        end
  | Some _ => [PrintBadArgumentText]
  end.

(** An event that builds one of the objects or starts a thread. *)
Definition constructs_or_spawns (e : main_event) : bool :=
  match e with
  | ConstructQueue | ConstructStorage _ | ConstructRandomizer _
  | SpawnProducer | SpawnConsumer => true
  | _ => false
  end.

(** ** Sequences of calls on the queue *)

(** A completed call on the queue, with the stop state its wait saw. *)
Inductive queue_call : Type :=
| QSave (element : Z) (st : bool)
| QGet (st : bool).

(** The elements handed to [SaveIntoQueue], in call order. *)
Fixpoint saved (calls : list queue_call) : list Z :=
  match calls with
  | [] => []
  | QSave element _ :: rest => element :: saved rest
  | QGet _ :: rest => saved rest
  end.

(** The calls one after the other on the queue [Q]; the value is the list of
    what the [GetFromQueue] calls returned.  The sequence is [Blocked] when
    one of its calls cannot complete in the state it meets. *)
Fixpoint queue_calls (calls : list queue_call) (Q : Queue) : outcome (list Z) :=
  match calls with
  | [] => Returns [] Q
  | QSave element st :: rest =>
      match SaveIntoQueue element st Q with
      | Returns _ Q1 => queue_calls rest Q1
      | Blocked => Blocked
      | UndefinedBehaviour => UndefinedBehaviour
      end
  | QGet st :: rest =>
      match GetFromQueue st Q with
      | Returns element Q1 =>
          match queue_calls rest Q1 with
          | Returns got Q2 => Returns (element :: got) Q2
          | Blocked => Blocked
          | UndefinedBehaviour => UndefinedBehaviour
          end
      | Blocked => Blocked
      | UndefinedBehaviour => UndefinedBehaviour
      end
  end.

(** The stop state seen by a call. *)
Definition call_stop (c : queue_call) : bool :=
  match c with
  | QSave _ st => st
  | QGet st => st
  end.

(** ** What a run of the storage records *)

(** The values of [1..N] in the order of their first arrival, those of
    [seen] left out. *)
Fixpoint first_arrivals (N : Z) (seen : list Z) (values : list Z) : list Z :=
  match values with
  | [] => []
  | v :: rest =>
      if bool_decide (1 ≤ v ≤ N) && negb (bool_decide (v ∈ seen))
      then v :: first_arrivals N (v :: seen) rest
      else first_arrivals N seen rest
  end.




(** ** The average of main *)



(** ** The worker threads of main *)

#[global] Instance GetNext_dec rzr v : Decision (GetNext rzr v).
Proof. unfold GetNext. apply _. Defined.

(** How one step of a thread ends: it moves on, it cannot move in this
    state (it is blocked or has returned), or it has undefined behaviour. *)
Inductive step_result (A : Type) : Type :=
| Moves (a : A)
| NotEnabled
| Faults.
Arguments Moves {A} a.
Arguments NotEnabled {A}.
Arguments Faults {A}.

(** Where a producer thread is: at the test of its [while], inside
    [SaveIntoQueue] with the number it drew, or returned. *)
Inductive producer_pc : Type :=
| PTest
| PSave (element : Z)
| PDone.

(** Where a consumer thread is: at the test of its [while], inside
    [GetFromQueue], about to call [ProcessNext] with the number it got, or
    returned. *)
Inductive consumer_pc : Type :=
| CTest
| CGet
| CProcess (element : Z)
| CDone.

(** One step of the lambda [producer_l]:
    [while (!storage.GetStopToken().stop_requested())
       queue.SaveIntoQueue(rzr.GetNext(), storage.GetStopToken());]
    [next] is the number [rzr.GetNext()] returns should the step draw one;
    the step is possible only for a number the randomizer can return.  The
    calls of [GetNext] on the randomizer the producers share are taken as
    atomic. *)
Definition producer_l (rzr : TRandomizer) (next : Z) (pc : producer_pc)
    (w : shared) : step_result (producer_pc * shared) :=
  match pc with
  | PTest =>
      if GetStopToken (storage w) then Moves (PDone, w)
      else if bool_decide (GetNext rzr next) then Moves (PSave next, w)
      else NotEnabled
  | PSave element =>
      match SaveIntoQueue element (GetStopToken (storage w)) (queue w) with
      | Returns _ Q => Moves (PTest, {| queue := Q; storage := storage w |})
      | Blocked => NotEnabled
      | UndefinedBehaviour => Faults
      end
  | PDone => NotEnabled
  end.

(** One step of the lambda [consumer_l]:
    [while (!storage.GetStopToken().stop_requested())
       storage.ProcessNext(queue.GetFromQueue(storage.GetStopToken()));]
    run by thread [tid]; [now] is the clock reading should the step read the
    clock. *)
Definition consumer_l (tid : Z) (now : time_point) (pc : consumer_pc)
    (w : shared) : step_result (consumer_pc * shared) :=
  match pc with
  | CTest =>
      if GetStopToken (storage w) then Moves (CDone, w)
      else Moves (CGet, w)
  | CGet =>
      match GetFromQueue (GetStopToken (storage w)) (queue w) with
      | Returns element Q =>
          Moves (CProcess element, {| queue := Q; storage := storage w |})
      | Blocked => NotEnabled
      | UndefinedBehaviour => Faults
      end
  | CProcess element =>
      match ProcessNext tid now element (storage w) with
      | Ok (s, _) => Moves (CTest, {| queue := queue w; storage := s |})
      | _ => Faults
      end
  | CDone => NotEnabled
  end.

(** The threads of [main] and the objects they share. *)
Record system : Type := mkSystem {
  sys_shared : shared;
  sys_rzr : TRandomizer;
  producers : list producer_pc;
  consumers : list consumer_pc
}.

(** The scheduler's choice: which thread takes its next step, with what
    that step reads from outside. *)
Inductive move : Type :=
| ProducerMove (i : nat) (next : Z)
| ConsumerMove (i : nat) (tid : Z) (now : time_point).

Definition step (m : move) (σ : system) : step_result system :=
  match m with
  | ProducerMove i next =>
      match producers σ !! i with
      | None => NotEnabled
      | Some pc =>
          match producer_l (sys_rzr σ) next pc (sys_shared σ) with
          | Moves (pc', w) =>
              Moves {| sys_shared := w; sys_rzr := sys_rzr σ;
                       producers := <[i := pc']> (producers σ);
                       consumers := consumers σ |}
          | NotEnabled => NotEnabled
          | Faults => Faults
          end
      end
  | ConsumerMove i tid now =>
      match consumers σ !! i with
      | None => NotEnabled
      | Some pc =>
          match consumer_l tid now pc (sys_shared σ) with
          | Moves (pc', w) =>
              Moves {| sys_shared := w; sys_rzr := sys_rzr σ;
                       producers := producers σ;
                       consumers := <[i := pc']> (consumers σ) |}
          | NotEnabled => NotEnabled
          | Faults => Faults
          end
      end
  end.

(** A schedule, step by step, up to its first step that cannot be taken. *)
Fixpoint steps (ms : list move) (σ : system) : step_result system :=
  match ms with
  | [] => Moves σ
  | m :: rest =>
      match step m σ with
      | Moves σ1 => steps rest σ1
      | NotEnabled => NotEnabled
      | Faults => Faults
      end
  end.

(** [constexpr auto thread_number = 3]. *)
Definition thread_number : nat := 3.

(** The system as [main] starts it for the target size [element_number]:
    the empty queue, the storage and the randomizer over
    [1..element_number], and [thread_number] producers and consumers, none
    of which has taken a step. *)
Definition threads_of_main (element_number : Z) (now : time_point)
    : option system :=
  match initial (to_uint element_number) now with
  | Some w =>
      Some {| sys_shared := w;
              sys_rzr := mkRandomizer 1 (to_uint element_number);
              producers := replicate thread_number PTest;
              consumers := replicate thread_number CTest |}
  | None => None
  end.

(** A producer inside [SaveIntoQueue]. *)
Definition saving (pc : producer_pc) : Prop :=
  match pc with PSave _ => True | _ => False end.

#[global] Instance saving_dec pc : Decision (saving pc).
Proof. destruct pc; simpl; apply _. Defined.

(** Some thread has left its loop. *)
Definition some_thread_returned (σ : system) : Prop :=
  PDone ∈ producers σ ∨ CDone ∈ consumers σ.

(** Every thread has left its loop: the threads can be joined. *)
Definition all_threads_returned (σ : system) : Prop :=
  Forall (λ pc, pc = PDone) (producers σ) ∧
  Forall (λ pc, pc = CDone) (consumers σ).

(** The numbers a producer or a consumer holds are of [1..N]. *)
Definition producer_ok (N : Z) (pc : producer_pc) : Prop :=
  match pc with PSave element => 1 ≤ element ≤ N | _ => True end.

Definition consumer_ok (N : Z) (pc : consumer_pc) : Prop :=
  match pc with CProcess element => 1 ≤ element ≤ N | _ => True end.

(** What holds of the system of [main] for the target size [N] between the
    steps of its threads: the storage is well formed, every number in
    flight is of [1..N], the queue is within its bound until the stop is
    requested and afterwards exceeds it by at most one element per producer
    that is no longer inside [SaveIntoQueue], and no thread has returned
    before the stop is requested. *)
Definition system_inv (N : Z) (σ : system) : Prop :=
  1 ≤ N ∧
  TStorage_inv N (storage (sys_shared σ)) ∧
  sys_rzr σ = mkRandomizer 1 N ∧
  Forall (λ v, 1 ≤ v ≤ N) (queue (sys_shared σ)) ∧
  Forall (producer_ok N) (producers σ) ∧
  Forall (consumer_ok N) (consumers σ) ∧
  (if StopSource (storage (sys_shared σ))
   then Z.of_nat (length (queue (sys_shared σ)))
        + Z.of_nat (length (filter saving (producers σ)))
        ≤ MaxQueueSize + Z.of_nat (length (producers σ))
   else Z.of_nat (length (queue (sys_shared σ))) ≤ MaxQueueSize) ∧
  (StopSource (storage (sys_shared σ)) = false →
   Forall (λ pc, pc ≠ PDone) (producers σ) ∧
   Forall (λ pc, pc ≠ CDone) (consumers σ)).

(** * Properties *)

(** ** Machine arithmetic *)

Lemma to_uint_small z : 0 ≤ z ≤ UINT_MAX → to_uint z = z.
Proof.
  unfold to_uint, UINT_MAX, UINT_MODULUS. intros H.
  apply Z.mod_small. lia.
Qed.

(** ** The storage invariant *)

Lemma filter_filled_replicate n :
  filter filled (replicate n TRandomData_default) = [].
Proof.
  induction n as [|n IH]; simpl; [done|].
  rewrite filter_cons_False; [done|].
  unfold filled. simpl. intros H. by apply H.
Qed.

Lemma TStorage_ctor_inv N now :
  0 ≤ N ≤ UINT_MAX →
  ∃ s, TStorage_ctor N now = Ok s ∧ TStorage_inv N s.
Proof.
  intros HN. eexists. split; [reflexivity|].
  split; simpl; try done.
  - by rewrite length_replicate.
  - intros i d Hd. apply lookup_replicate in Hd as [-> _]. by left.
  - unfold orders. by rewrite filter_filled_replicate.
  - split; [done|]. lia.
Qed.

Lemma inv_filledCount N s : TStorage_inv N s → filledCount s = Counter s.
Proof.
  intros Hinv. unfold filledCount.
  pose proof (inv_orders _ _ Hinv) as Hp.
  pose proof (inv_counter _ _ Hinv) as Hc.
  apply Permutation_length in Hp.
  unfold orders in Hp. rewrite length_fmap, length_seqZ in Hp.
  rewrite Hp. lia.
Qed.

Lemma inv_Counter_le N s : TStorage_inv N s → Counter s ≤ N.
Proof.
  intros Hinv. rewrite <- (inv_filledCount _ _ Hinv). unfold filledCount.
  pose proof (length_filter filled (Storage s)) as Hle.
  rewrite (inv_length _ _ Hinv) in Hle.
  pose proof (inv_range _ _ Hinv). lia.
Qed.

(** An empty slot leaves room below the target size. *)
Lemma inv_Counter_lt N s (i : nat) d :
  TStorage_inv N s → Storage s !! i = Some d → Number d = 0 → Counter s < N.
Proof.
  intros Hinv Hd Hz. rewrite <- (inv_filledCount _ _ Hinv). unfold filledCount.
  assert (length (filter filled (Storage s)) < length (Storage s))%nat as Hlt.
  { apply (length_filter_lt _ _ d).
    - apply list_elem_of_lookup. eauto.
    - unfold filled. intros Hf. by apply Hf. }
  rewrite (inv_length _ _ Hinv) in Hlt.
  pose proof (inv_range _ _ Hinv). lia.
Qed.

(** Filling an empty slot adds its order to the orders of the table. *)
Lemma orders_insert (l : list TRandomData) (i : nat) d d' :
  l !! i = Some d → ¬ filled d → filled d' →
  orders (<[i := d']> l) ≡ₚ Order d' :: orders l.
Proof.
  intros Hd Hempty Hfull.
  assert (i < length l)%nat as Hi by (eapply lookup_lt_Some; eauto).
  rewrite insert_take_drop by done.
  rewrite <- (take_drop_middle l i d) at 3 by done.
  unfold orders. rewrite !filter_app, !filter_cons.
  destruct (decide (filled d')) as [_|?]; [|done].
  destruct (decide (filled d)) as [?|_]; [done|].
  rewrite !fmap_app, fmap_cons.
  symmetry. apply Permutation_middle.
Qed.

(** The index computed by [ProcessNext] for a value of the domain. *)
Lemma index_in_range N s element :
  TStorage_inv N s → 1 ≤ element ≤ N →
  Z.to_nat (to_uint (element - 1)) = Z.to_nat (element - 1) ∧
  (Z.to_nat (element - 1) < length (Storage s))%nat.
Proof.
  intros Hinv Hel. pose proof (inv_range _ _ Hinv).
  rewrite to_uint_small by lia.
  rewrite (inv_length _ _ Hinv). split; [done|lia].
Qed.

Lemma range_test N s element :
  StorageSize s = N →
  (0 <? element) && (element <=? StorageSize s) = bool_decide (1 ≤ element ≤ N).
Proof.
  intros ->. case_bool_decide as H.
  - apply andb_true_iff. split; [apply Z.ltb_lt|apply Z.leb_le]; lia.
  - apply andb_false_iff.
    destruct (decide (0 < element)).
    + right. apply Z.leb_gt. lia.
    + left. apply Z.ltb_ge. lia.
Qed.

(** ** The three ways through [ProcessNext] *)

Lemma slot_of_in_range N s element :
  TStorage_inv N s → 1 ≤ element ≤ N → is_Some (slot_of element s).
Proof.
  intros Hinv Hel. unfold slot_of. apply lookup_lt_is_Some.
  by apply (index_in_range N s element).
Qed.

(** Outside [1, StorageSize] the guard fails and nothing is touched. *)
Lemma ProcessNext_out_of_range tid now element s :
  ¬ (1 ≤ element ≤ StorageSize s) →
  ProcessNext tid now element s = Ok (s, []).
Proof.
  intros Hout. unfold ProcessNext.
  rewrite (range_test (StorageSize s)) by done.
  by rewrite bool_decide_eq_false_2.
Qed.

Lemma request_stop_requested s : StopSource s = true → request_stop s = s.
Proof. destruct s. simpl. by intros ->. Qed.

(** A value whose slot is filled: nothing is touched and nothing printed. *)
Lemma ProcessNext_duplicate N s tid now element d :
  TStorage_inv N s → 1 ≤ element ≤ N →
  slot_of element s = Some d → filled d →
  ProcessNext tid now element s = Ok (s, []).
Proof.
  intros Hinv Hel Hd Hfull. unfold ProcessNext.
  rewrite (range_test N) by apply Hinv.
  rewrite bool_decide_eq_true_2 by done. simpl.
  destruct (index_in_range N s element Hinv Hel) as [-> _].
  unfold slot_of in Hd. rewrite Hd.
  destruct (Z.eqb_spec (Number d) 0) as [Hz|_]; [by destruct Hfull|].
  destruct (Z.eqb_spec (Counter s) (StorageSize s)) as [Heq|_]; [|done].
  rewrite request_stop_requested; [done|].
  apply (inv_stop _ _ Hinv). rewrite (inv_size _ _ Hinv) in Heq.
  pose proof (inv_Counter_le _ _ Hinv). lia.
Qed.

(** A value whose slot is empty: the slot is filled with the next order, one
    line is printed and the stop is requested when the table is complete. *)
Lemma ProcessNext_first N s tid now element d :
  TStorage_inv N s → 1 ≤ element ≤ N →
  slot_of element s = Some d → Number d = 0 →
  ProcessNext tid now element s =
    Ok (recorded now element s,
        [ {| log_thread := tid; log_number := element;
             log_order := Counter s + 1;
             log_elapsed := to_ulong (microseconds (now - Start s)) |} ]).
Proof.
  intros Hinv Hel Hd Hempty. unfold ProcessNext.
  rewrite (range_test N) by apply Hinv.
  rewrite bool_decide_eq_true_2 by done. simpl.
  destruct (index_in_range N s element Hinv Hel) as [-> _].
  unfold slot_of in Hd. rewrite Hd, Hempty. simpl.
  pose proof (inv_Counter_lt _ _ _ _ Hinv Hd Hempty) as Hlt.
  pose proof (inv_counter _ _ Hinv) as Hge.
  pose proof (inv_range _ _ Hinv) as HN.
  rewrite to_uint_small by lia.
  assert (StopSource s = false) as Hstop.
  { destruct (StopSource s) eqn:E; [|done].
    apply (inv_stop _ _ Hinv) in E. lia. }
  unfold recorded.
  destruct (Z.eqb_spec (Counter s + 1) (StorageSize s)) as [Heq|Hne].
  - rewrite bool_decide_eq_true_2 by done. reflexivity.
  - rewrite bool_decide_eq_false_2 by done. by rewrite Hstop.
Qed.

Lemma recorded_inv N s now element d :
  TStorage_inv N s → 1 ≤ element ≤ N →
  slot_of element s = Some d → Number d = 0 →
  TStorage_inv N (recorded now element s).
Proof.
  intros Hinv Hel Hd Hempty.
  pose proof (inv_Counter_lt _ _ _ _ Hinv Hd Hempty) as Hlt.
  pose proof (inv_counter _ _ Hinv) as Hge.
  split; simpl.
  - apply Hinv.
  - apply Hinv.
  - rewrite length_insert. apply Hinv.
  - intros i x Hx.
    destruct (decide (i = Z.to_nat (element - 1))) as [->|Hne].
    + rewrite list_lookup_insert_eq in Hx
        by (by apply (index_in_range N s element)).
      injection Hx as <-. simpl. right. lia.
    + rewrite list_lookup_insert_ne in Hx by done.
      by apply (inv_numbers _ _ Hinv).
  - lia.
  - rewrite (orders_insert _ _ d); [simpl| done | | ].
    + rewrite (inv_orders _ _ Hinv).
      replace (Counter s + 1) with (Z.of_nat (S (Z.to_nat (Counter s)))) at 2 by lia.
      rewrite seqZ_S. rewrite Z2Nat.id by done.
      rewrite Permutation_cons_append.
      by replace (1 + Counter s) with (Counter s + 1) by lia.
    + unfold filled. rewrite Hempty. by intros H.
    + unfold filled. simpl. lia.
  - rewrite (inv_size _ _ Hinv). rewrite bool_decide_eq_true. lia.
Qed.

(** Every call on a well-formed storage returns, and leaves it well formed. *)
Lemma ProcessNext_inv N s tid now element :
  TStorage_inv N s →
  ∃ s' out, ProcessNext tid now element s = Ok (s', out) ∧ TStorage_inv N s'.
Proof.
  intros Hinv.
  destruct (decide (1 ≤ element ≤ N)) as [Hel|Hout].
  - destruct (slot_of_in_range N s element Hinv Hel) as [d Hd].
    destruct (decide (Number d = 0)) as [Hempty|Hfull].
    + eexists _, _. split; [by eapply ProcessNext_first|].
      by eapply recorded_inv.
    + exists s, []. split; [|done]. by eapply ProcessNext_duplicate.
  - exists s, []. split; [|done].
    apply ProcessNext_out_of_range. by rewrite (inv_size _ _ Hinv).
Qed.

Lemma ProcessAll_inv N calls : ∀ s,
  TStorage_inv N s →
  ∃ s' out, ProcessAll calls s = Ok (s', out) ∧ TStorage_inv N s'.
Proof.
  induction calls as [|a rest IH]; intros s Hinv; simpl.
  - by exists s, [].
  - unfold ProcessArrival.
    destruct (ProcessNext_inv N s (arr_thread a) (arr_clock a) (arr_element a) Hinv)
      as (s1 & out1 & -> & Hinv1).
    destruct (IH s1 Hinv1) as (s2 & out2 & -> & Hinv2).
    by exists s2, (out1 ++ out2).
Qed.

(** ** Runs from a freshly constructed table *)

Lemma reached_inv N t0 calls :
  0 ≤ N ≤ UINT_MAX → ∃ s, reached N t0 calls s ∧ TStorage_inv N s.
Proof.
  intros HN.
  destruct (TStorage_ctor_inv N t0 HN) as (s0 & Hs0 & Hinv0).
  destruct (ProcessAll_inv N calls s0 Hinv0) as (s & out & Hs & Hinv).
  exists s. split; [|done]. by exists s0, out.
Qed.

Lemma is_filled_true v s :
  is_filled v s = true ↔ ∃ d, slot_of v s = Some d ∧ filled d.
Proof.
  unfold is_filled, filled. destruct (slot_of v s) as [d|].
  - destruct (Z.eqb_spec (Number d) 0) as [Hz|Hnz]; simpl.
    + split; [done|]. intros (d' & Hd' & Hf). by injection Hd' as <-.
    + split; [|done]. by exists d.
  - split; [done|]. by intros (d & Hd & _).
Qed.

Lemma slot_of_recorded N s now element v :
  TStorage_inv N s → 1 ≤ element ≤ N → 1 ≤ v ≤ N →
  slot_of v (recorded now element s) =
    if decide (v = element)
    then Some {| Number := element;
                 TimeToGenerate := to_ulong (microseconds (now - Start s));
                 Order := Counter s + 1 |}
    else slot_of v s.
Proof.
  intros Hinv Hel Hv. unfold slot_of, recorded. simpl.
  destruct (decide (v = element)) as [->|Hne].
  - apply list_lookup_insert_eq. by apply (index_in_range N s element).
  - apply list_lookup_insert_ne. lia.
Qed.

(** One call fills the slot of its own value and no other. *)
Lemma ProcessNext_is_filled N s tid now element s' out v :
  TStorage_inv N s → 1 ≤ v ≤ N →
  ProcessNext tid now element s = Ok (s', out) →
  is_filled v s' = is_filled v s || bool_decide (element = v).
Proof.
  intros Hinv Hv Hstep.
  destruct (decide (1 ≤ element ≤ N)) as [Hel|Hout].
  - destruct (slot_of_in_range N s element Hinv Hel) as [d Hd].
    destruct (decide (Number d = 0)) as [Hempty|Hfull].
    + rewrite (ProcessNext_first N s tid now element d) in Hstep by done.
      injection Hstep as <- <-.
      unfold is_filled at 1. rewrite (slot_of_recorded N) by done.
      destruct (decide (v = element)) as [->|Hne].
      * rewrite bool_decide_eq_true_2 by done. rewrite orb_true_r. simpl.
        apply negb_true_iff, Z.eqb_neq. lia.
      * rewrite bool_decide_eq_false_2 by done. by rewrite orb_false_r.
    + rewrite (ProcessNext_duplicate N s tid now element d) in Hstep by done.
      injection Hstep as <- <-.
      case_bool_decide as Heq; [|by rewrite orb_false_r].
      subst v. rewrite orb_true_r. apply is_filled_true. by exists d.
  - rewrite ProcessNext_out_of_range in Hstep
      by (by rewrite (inv_size _ _ Hinv)).
    injection Hstep as <- <-.
    rewrite bool_decide_eq_false_2 by lia. by rewrite orb_false_r.
Qed.

(** After a run the filled slots are those filled before and those of the
    values that arrived. *)
Lemma ProcessAll_is_filled N calls v : ∀ s s' out,
  TStorage_inv N s → 1 ≤ v ≤ N →
  ProcessAll calls s = Ok (s', out) →
  is_filled v s' = is_filled v s || bool_decide (v ∈ arr_element <$> calls).
Proof.
  induction calls as [|a rest IH]; intros s s' out Hinv Hv Hrun; simpl in Hrun.
  - injection Hrun as <- <-.
    rewrite fmap_nil, bool_decide_eq_false_2 by apply not_elem_of_nil.
    by rewrite orb_false_r.
  - unfold ProcessArrival in Hrun. rewrite fmap_cons.
    destruct (ProcessNext_inv N s (arr_thread a) (arr_clock a) (arr_element a) Hinv)
      as (s1 & out1 & Hstep & Hinv1).
    rewrite Hstep in Hrun.
    destruct (ProcessAll rest s1) as [[s2 out2]| |] eqn:E; try done.
    injection Hrun as <- <-.
    rewrite (IH _ _ _ Hinv1 Hv E).
    rewrite (ProcessNext_is_filled N s _ _ _ _ _ v Hinv Hv Hstep).
    rewrite <- orb_assoc. f_equal.
    apply eq_true_iff_eq. rewrite orb_true_iff, !bool_decide_eq_true.
    rewrite elem_of_cons. split; intros [H|H]; auto.
Qed.

Lemma is_filled_ctor N t0 s0 v :
  TStorage_ctor N t0 = Ok s0 → is_filled v s0 = false.
Proof.
  intros H. injection H as <-. unfold is_filled, slot_of. simpl.
  destruct (replicate _ _ !! _) as [d|] eqn:E; [|done].
  by apply lookup_replicate in E as [-> _].
Qed.

(** ** The history of a run *)

Lemma stop_requests_cons s s' tr :
  stop_requests (s :: s' :: tr) =
    ((if negb (StopSource s) && StopSource s' then 1 else 0)
     + stop_requests (s' :: tr))%nat.
Proof. reflexivity. Qed.

Lemma stop_resets_cons s s' tr :
  stop_resets (s :: s' :: tr) =
    ((if StopSource s && negb (StopSource s') then 1 else 0)
     + stop_resets (s' :: tr))%nat.
Proof. reflexivity. Qed.

Lemma ProcessNext_Counter_mono N s tid now element s' out :
  TStorage_inv N s →
  ProcessNext tid now element s = Ok (s', out) →
  Counter s ≤ Counter s'.
Proof.
  intros Hinv Hstep.
  destruct (decide (1 ≤ element ≤ N)) as [Hel|Hout].
  - destruct (slot_of_in_range N s element Hinv Hel) as [d Hd].
    destruct (decide (Number d = 0)) as [Hempty|Hfull].
    + rewrite (ProcessNext_first N s tid now element d) in Hstep by done.
      injection Hstep as <- <-. simpl. lia.
    + rewrite (ProcessNext_duplicate N s tid now element d) in Hstep by done.
      by injection Hstep as <- <-.
  - rewrite ProcessNext_out_of_range in Hstep
      by (by rewrite (inv_size _ _ Hinv)).
    by injection Hstep as <- <-.
Qed.

(** Once requested, the stop stays requested over a call. *)
Lemma ProcessNext_stop_mono N s tid now element s' out :
  TStorage_inv N s → TStorage_inv N s' →
  ProcessNext tid now element s = Ok (s', out) →
  StopSource s = true → StopSource s' = true.
Proof.
  intros Hinv Hinv' Hstep Hstop.
  apply (inv_stop _ _ Hinv) in Hstop.
  apply (inv_stop _ _ Hinv').
  pose proof (ProcessNext_Counter_mono _ _ _ _ _ _ _ Hinv Hstep).
  pose proof (inv_Counter_le _ _ Hinv'). lia.
Qed.

Lemma trajectory_spec N calls : ∀ s,
  TStorage_inv N s →
  ∃ tr s_end, trajectory calls s = Ok tr ∧
    head tr = Some s ∧ last tr = Some s_end ∧
    Forall (TStorage_inv N) tr ∧
    stop_resets tr = 0%nat ∧
    (Nat.b2n (StopSource s) + stop_requests tr = Nat.b2n (StopSource s_end))%nat.
Proof.
  induction calls as [|a rest IH]; intros s Hinv; simpl.
  - exists [s], s. repeat split; auto.
  - unfold ProcessArrival.
    destruct (ProcessNext_inv N s (arr_thread a) (arr_clock a) (arr_element a) Hinv)
      as (s1 & out1 & Hstep & Hinv1).
    rewrite Hstep.
    destruct (IH s1 Hinv1) as (tr & s_end & -> & Hhd & Hlast & Hall & Hres & Hreq).
    exists (s :: tr), s_end.
    destruct tr as [|x tr]; [done|]. injection Hhd as ->.
    repeat split; auto.
    + rewrite stop_resets_cons, Hres.
      destruct (StopSource s) eqn:E; [|done].
      by rewrite (ProcessNext_stop_mono N s _ _ _ _ _ Hinv Hinv1 Hstep E).
    + rewrite stop_requests_cons, <- Hreq.
      destruct (StopSource s) eqn:E.
      * rewrite (ProcessNext_stop_mono N s _ _ _ _ _ Hinv Hinv1 Hstep E). simpl. lia.
      * destruct (StopSource s1); simpl; lia.
Qed.

Lemma trajectory_last calls : ∀ s tr s_end,
  trajectory calls s = Ok tr → last tr = Some s_end →
  ∃ out, ProcessAll calls s = Ok (s_end, out).
Proof.
  induction calls as [|a rest IH]; intros s tr s_end Htr Hlast; simpl in *.
  - injection Htr as <-. injection Hlast as <-. by exists [].
  - destruct (ProcessArrival a s) as [[s1 out1]| |]; try done.
    destruct (trajectory rest s1) as [tr1| |] eqn:E; try done.
    injection Htr as <-.
    assert (last tr1 = Some s_end) as Hlast1.
    { destruct tr1 as [|x tr1]; [|done].
      destruct rest as [|b rest]; simpl in E; [done|].
      destruct (ProcessArrival b s1) as [[? ?]| |]; try done.
      by destruct (trajectory rest _). }
    destruct (IH _ _ _ E Hlast1) as [out2 ->]. by eexists.
Qed.

(** ** The result table: the claims *)

(** C4. At-most-once recording.  On a table of target size [N], after any
    calls [pre], consider a call with a value [v] of [1..N].  If [v] did not
    arrive before, the call fills the slot of [v] (it was empty) with [v] and
    the next order, and increments the counter by one.  If [v] arrived
    before, the call is a silent no-op: the whole storage, table and counter
    included, is as before and nothing is printed. *)
Theorem ProcessNext_records_at_most_once N t0 pre a :
  0 ≤ N ≤ UINT_MAX → 1 ≤ arr_element a ≤ N →
  ∃ s, reached N t0 pre s ∧
    if bool_decide (arr_element a ∈ arr_element <$> pre)
    then ProcessArrival a s = Ok (s, [])
    else ∃ s' line,
      ProcessArrival a s = Ok (s', [line]) ∧
      is_filled (arr_element a) s = false ∧
      (∃ t, slot_of (arr_element a) s' =
              Some {| Number := arr_element a; TimeToGenerate := t;
                      Order := Counter s + 1 |}) ∧
      Counter s' = Counter s + 1.
Proof.
  intros HN Hv.
  destruct (reached_inv N t0 pre HN) as (s & Hreach & Hinv).
  exists s. split; [done|].
  destruct Hreach as (s0 & out & Hs0 & Hrun).
  destruct (TStorage_ctor_inv N t0 HN) as (s0' & Hs0' & Hinv0).
  assert (s0' = s0) as -> by congruence.
  pose proof (ProcessAll_is_filled N pre _ _ _ _ Hinv0 Hv Hrun) as Hfill.
  rewrite (is_filled_ctor N t0 s0 _ Hs0) in Hfill. simpl in Hfill.
  destruct (slot_of_in_range N s _ Hinv Hv) as [d Hd].
  unfold ProcessArrival.
  destruct (bool_decide _) eqn:Hseen.
  - apply is_filled_true in Hfill as (d' & Hd' & Hfull).
    by apply (ProcessNext_duplicate N s _ _ _ d').
  - assert (Number d = 0) as Hempty.
    { unfold is_filled in Hfill. rewrite Hd in Hfill.
      by apply negb_false_iff, Z.eqb_eq in Hfill. }
    eexists _, _. split; [by eapply ProcessNext_first|].
    split; [done|]. split; [|done].
    eexists. rewrite (slot_of_recorded N) by done.
    by rewrite decide_True.
Qed.

Lemma ProcessNext_records_at_most_once_witness :
  0 ≤ 3 ≤ UINT_MAX ∧ 1 ≤ arr_element (mkArrival 0 0 2) ≤ 3 ∧
  ∃ s, reached 3 0 (arrivals [2; 1]) s ∧
       ProcessArrival (mkArrival 0 0 2) s = Ok (s, []).
Proof.
  split; [by vm_compute|]. split; [by vm_compute|].
  apply (ProcessNext_records_at_most_once 3 0 (arrivals [2; 1]) (mkArrival 0 0 2));
    by vm_compute.
Defined.

(** C5. On a table of target size [N >= 1], along any run: in every state
    the counter is the number of filled slots and is at most [N]; the stop
    is requested in exactly the states where all [N] slots are filled, so it
    becomes requested in the call that fills the [N]th slot; the stop state
    goes from not requested to requested once if the run fills the table
    (and not at all otherwise), and never goes back. *)
Theorem stop_requested_once_when_full N t0 calls :
  1 ≤ N ≤ UINT_MAX →
  ∃ s0 tr s_end,
    TStorage_ctor N t0 = Ok s0 ∧ trajectory calls s0 = Ok tr ∧
    last tr = Some s_end ∧ reached N t0 calls s_end ∧
    Forall (λ s, Counter s = filledCount s ∧ filledCount s ≤ N ∧
                 (StopSource s = true ↔ filledCount s = N)) tr ∧
    stop_resets tr = 0%nat ∧
    stop_requests tr = if bool_decide (filledCount s_end = N) then 1%nat else 0%nat.
Proof.
  intros HN.
  destruct (TStorage_ctor_inv N t0) as (s0 & Hs0 & Hinv0); [lia|].
  destruct (trajectory_spec N calls s0 Hinv0)
    as (tr & s_end & Htr & Hhd & Hlast & Hall & Hres & Hreq).
  exists s0, tr, s_end. repeat split; try done.
  - destruct (trajectory_last _ _ _ _ Htr Hlast) as [out Hrun].
    by exists s0, out.
  - eapply Forall_impl; [exact Hall|]. intros s Hinv. simpl.
    rewrite (inv_filledCount _ _ Hinv).
    split; [done|]. split; [by apply inv_Counter_le|].
    rewrite (inv_stop _ _ Hinv). split; [by intros [_ ?]|]. intros ->. lia.
  - assert (StopSource s0 = false) as Hstop0 by (by injection Hs0 as <-).
    rewrite Hstop0 in Hreq. simpl in Hreq. rewrite Hreq.
    assert (TStorage_inv N s_end) as Hinv_end.
    { rewrite Forall_forall in Hall. apply Hall.
      apply list_elem_of_lookup. exists (pred (length tr)).
      by rewrite <- last_lookup. }
    rewrite (inv_filledCount _ _ Hinv_end).
    destruct (StopSource s_end) eqn:E.
    + apply (inv_stop _ _ Hinv_end) in E as [_ E].
      by rewrite bool_decide_eq_true_2.
    + rewrite bool_decide_eq_false_2; [done|].
      intros Heq. assert (StopSource s_end = true); [|congruence].
      apply (inv_stop _ _ Hinv_end). lia.
Qed.

Lemma stop_requested_once_when_full_witness :
  1 ≤ 2 ≤ UINT_MAX ∧
  ∃ s0 tr s_end,
    TStorage_ctor 2 0 = Ok s0 ∧ trajectory (arrivals [2; 1; 1; 2]) s0 = Ok tr ∧
    last tr = Some s_end ∧ reached 2 0 (arrivals [2; 1; 1; 2]) s_end ∧
    Forall (λ s, Counter s = filledCount s ∧ filledCount s ≤ 2 ∧
                 (StopSource s = true ↔ filledCount s = 2)) tr ∧
    stop_resets tr = 0%nat ∧
    stop_requests tr = if bool_decide (filledCount s_end = 2) then 1%nat else 0%nat.
Proof.
  split; [by vm_compute|].
  apply (stop_requested_once_when_full 2 0 (arrivals [2; 1; 1; 2])).
  by vm_compute.
Defined.

(** C6. After any run on a table of target size [N] the orders stored in
    the filled slots are a permutation of [1..filledCount]; when all [N]
    slots are filled they are a permutation of [1..N]. *)
Theorem orders_are_a_permutation N t0 calls :
  0 ≤ N ≤ UINT_MAX →
  ∃ s, reached N t0 calls s ∧
    orders (Storage s) ≡ₚ seqZ 1 (filledCount s) ∧
    (filledCount s = N → orders (Storage s) ≡ₚ seqZ 1 N).
Proof.
  intros HN.
  destruct (reached_inv N t0 calls HN) as (s & Hreach & Hinv).
  exists s. split; [done|].
  rewrite (inv_filledCount _ _ Hinv).
  split; [apply Hinv|]. intros <-. apply Hinv.
Qed.

Lemma orders_are_a_permutation_witness :
  0 ≤ 3 ≤ UINT_MAX ∧
  ∃ s, reached 3 0 (arrivals [3; 1; 3; 2]) s ∧
    orders (Storage s) ≡ₚ seqZ 1 (filledCount s) ∧
    (filledCount s = 3 → orders (Storage s) ≡ₚ seqZ 1 3).
Proof.
  split; [by vm_compute|].
  apply (orders_are_a_permutation 3 0 (arrivals [3; 1; 3; 2])).
  by vm_compute.
Defined.

(** C7. A table of target size 3 fed 2, 2, 1, 3 (by any threads, at any
    clock readings): the first 2 gets order 1; the second 2 changes nothing
    and prints nothing; 1 gets order 2 and the stop is still not requested;
    3 gets order 3 and the stop is requested.  At the end value 1 has order
    2, value 2 order 1, value 3 order 3, and the counter is 3. *)
Theorem example_2_2_1_3 t0 tid1 c1 tid2 c2 tid3 c3 tid4 c4 :
  ∃ s0 s1 s3 s4 l1 l3 l4,
    TStorage_ctor 3 t0 = Ok s0 ∧
    ProcessNext tid1 c1 2 s0 = Ok (s1, [l1]) ∧
    ProcessNext tid2 c2 2 s1 = Ok (s1, []) ∧
    ProcessNext tid3 c3 1 s1 = Ok (s3, [l3]) ∧
    StopSource s3 = false ∧
    ProcessNext tid4 c4 3 s3 = Ok (s4, [l4]) ∧
    StopSource s4 = true ∧
    Counter s4 = 3 ∧
    (λ d, (Number d, Order d)) <$> Storage s4 = [(1, 2); (2, 1); (3, 3)] ∧
    (log_number l1, log_order l1) = (2, 1) ∧
    (log_number l3, log_order l3) = (1, 2) ∧
    (log_number l4, log_order l4) = (3, 3) ∧
    ProcessAll [mkArrival tid1 c1 2; mkArrival tid2 c2 2;
                mkArrival tid3 c3 1; mkArrival tid4 c4 3] s0
      = Ok (s4, [l1; l3; l4]).
Proof.
  do 7 eexists. repeat split; reflexivity.
Qed.

(** C8. A value outside [1, N], where [N] is the target size of the
    storage, is ignored: the call returns, the storage (every slot, the
    counter and the stop state) is exactly as before and nothing is printed.
    This holds of any storage whatever. *)
Theorem ProcessNext_ignores_out_of_domain tid now v s :
  v < 1 ∨ StorageSize s < v →
  ProcessNext tid now v s = Ok (s, []).
Proof.
  intros Hout. apply ProcessNext_out_of_range. lia.
Qed.

Lemma ProcessNext_ignores_out_of_domain_witness :
  (0 < 1 ∨ StorageSize (mkStorage [mkRandomData 0 0 0; mkRandomData 2 5 1] 2 1 false 7) < 0) ∧
  ProcessNext 4 9 0 (mkStorage [mkRandomData 0 0 0; mkRandomData 2 5 1] 2 1 false 7)
    = Ok (mkStorage [mkRandomData 0 0 0; mkRandomData 2 5 1] 2 1 false 7, []).
Proof.
  split; [left; lia|].
  apply (ProcessNext_ignores_out_of_domain 4 9 0). left. lia.
Defined.

(** C10. After any run on a table of target size [N] the table has [N]
    slots and the slot at index [i] holds [Number] 0 (empty) or [i + 1]; a
    filled slot therefore holds exactly the value of its index, never 0. *)
Theorem slot_holds_zero_or_its_value N t0 calls :
  0 ≤ N ≤ UINT_MAX →
  ∃ s, reached N t0 calls s ∧
    length (Storage s) = Z.to_nat N ∧
    ∀ (i : nat) d, Storage s !! i = Some d →
      (Number d = 0 ∨ Number d = Z.of_nat i + 1) ∧
      (filled d → Number d = Z.of_nat i + 1 ∧ slot_of (Number d) s = Some d).
Proof.
  intros HN.
  destruct (reached_inv N t0 calls HN) as (s & Hreach & Hinv).
  exists s. split; [done|]. split; [apply Hinv|].
  intros i d Hd.
  pose proof (inv_numbers _ _ Hinv i d Hd) as Hnum.
  split; [done|]. intros Hfull.
  destruct Hnum as [Hz|Hi]; [by destruct Hfull|].
  split; [done|]. unfold slot_of. rewrite Hi.
  by replace (Z.to_nat (Z.of_nat i + 1 - 1)) with i by lia.
Qed.

Lemma slot_holds_zero_or_its_value_witness :
  0 ≤ 3 ≤ UINT_MAX ∧
  ∃ s, reached 3 0 (arrivals [3; 0; 7; 1; 3]) s ∧
    length (Storage s) = Z.to_nat 3 ∧
    ∀ (i : nat) d, Storage s !! i = Some d →
      (Number d = 0 ∨ Number d = Z.of_nat i + 1) ∧
      (filled d → Number d = Z.of_nat i + 1 ∧ slot_of (Number d) s = Some d).
Proof.
  split; [by vm_compute|].
  apply (slot_holds_zero_or_its_value 3 0 (arrivals [3; 0; 7; 1; 3])).
  by vm_compute.
Defined.

(** On a complete table a call with a value of the domain takes the
    [request_stop] branch again; the stop being requested already, the
    storage is as before. *)
Lemma ProcessNext_complete_table N s tid now element :
  TStorage_inv N s → 1 ≤ element ≤ N → Counter s = N →
  (Counter s =? StorageSize s) = true ∧
  ProcessNext tid now element s = Ok (request_stop s, []) ∧
  request_stop s = s.
Proof.
  intros Hinv Hel Hfull.
  assert (StopSource s = true) as Hstop by (apply (inv_stop _ _ Hinv); lia).
  split; [apply Z.eqb_eq; by rewrite (inv_size _ _ Hinv)|].
  rewrite (request_stop_requested s Hstop). split; [|done].
  destruct (slot_of_in_range N s element Hinv Hel) as [d Hd].
  apply (ProcessNext_duplicate N s _ _ _ d); try done.
  intros Hempty.
  pose proof (inv_Counter_lt N s _ d Hinv Hd Hempty). lia.
Qed.

(** ** The queue *)

Lemma cv_wait_None stop_requested pred :
  cv_wait stop_requested pred = None ↔ stop_requested = false ∧ pred = false.
Proof. destruct stop_requested, pred; simpl; split; try done; by intros []. Qed.

(** [SaveIntoQueue] stays blocked exactly while the queue is full and no stop
    has been requested. *)
Lemma SaveIntoQueue_Blocked element st Q :
  SaveIntoQueue element st Q = Blocked ↔
  st = false ∧ MaxQueueSize ≤ Z.of_nat (length Q).
Proof.
  unfold SaveIntoQueue.
  destruct (cv_wait _ _) as [b|] eqn:E.
  - split; [done|]. intros [-> Hfull].
    apply Z.ltb_ge in Hfull. rewrite Hfull in E. done.
  - apply cv_wait_None in E as [-> Hfull]. apply Z.ltb_ge in Hfull. done.
Qed.

(** In every other state it returns, and the element is at the tail. *)
Lemma SaveIntoQueue_Returns element st Q :
  st = true ∨ Z.of_nat (length Q) < MaxQueueSize →
  SaveIntoQueue element st Q = Returns tt (Q ++ [element]).
Proof.
  intros H. unfold SaveIntoQueue.
  destruct (cv_wait _ _) as [b|] eqn:E; [done|].
  apply cv_wait_None in E as [-> Hfull]. apply Z.ltb_ge in Hfull.
  destruct H; [done|lia].
Qed.

(** While no stop is requested a push keeps the queue within its bound. *)
Lemma SaveIntoQueue_bound element Q Q' :
  SaveIntoQueue element false Q = Returns tt Q' →
  Z.of_nat (length Q') ≤ MaxQueueSize.
Proof.
  unfold SaveIntoQueue, cv_wait.
  destruct (Z.ltb_spec (Z.of_nat (length Q)) MaxQueueSize) as [Hlt|_]; [|done].
  intros H. injection H as <-. rewrite length_app. simpl. lia.
Qed.

(** [GetFromQueue] stays blocked exactly while the queue is empty and no
    stop has been requested. *)
Lemma GetFromQueue_Blocked st Q :
  GetFromQueue st Q = Blocked ↔ st = false ∧ Q = [].
Proof.
  unfold GetFromQueue. destruct st, Q as [|x Q]; simpl; split; try done.
  all: by intros [].
Qed.

(** On a queue that is not empty it removes and returns the head. *)
Lemma GetFromQueue_Returns st element Q :
  GetFromQueue st (element :: Q) = Returns element Q.
Proof. unfold GetFromQueue. by destruct st. Qed.

(** C1, at the input where the code departs from it: the queue holds
    [MaxQueueSize] elements, so the call is blocked, and then the stop is
    requested.  The wait returns [false], the function does not look at it,
    and the element is pushed: the call returns with the queue one element
    longer. *)
Theorem SaveIntoQueue_pushes_after_stop :
  let Q := replicate 1000 1 in
  Z.of_nat (length Q) = MaxQueueSize ∧
  SaveIntoQueue 7 false Q = Blocked ∧
  cv_wait true (Z.of_nat (length Q) <? MaxQueueSize) = Some false ∧
  SaveIntoQueue 7 true Q = Returns tt (Q ++ [7]) ∧
  Q ++ [7] ≠ Q.
Proof.
  cbv zeta. split; [by vm_compute|]. split; [by vm_compute|].
  split; [by vm_compute|]. split; [by vm_compute|].
  intros H. apply (f_equal length) in H.
  rewrite length_app, length_replicate in H. simpl in H. lia.
Qed.

(** C2, at the input where the code departs from it: the queue is empty and
    the stop has been requested.  The wait returns [false], the function
    does not look at it, and reads the front of the empty queue.  The state
    is reached in a run of the program with target size 1: one number is
    pushed, popped and recorded, which requests the stop, while another
    consumer is waiting in [GetFromQueue]. *)
Theorem GetFromQueue_reads_empty_queue_after_stop :
  GetFromQueue false [] = Blocked ∧
  cv_wait true (negb (bool_decide (@nil Z = []))) = Some false ∧
  GetFromQueue true [] = UndefinedBehaviour ∧
  ∃ w0 w, initial 1 0 = Some w0 ∧
    perform_all [OpSave 1; OpGet; OpProcess (mkArrival 0 0 1)] w0 = Some w ∧
    queue w = [] ∧ GetStopToken (storage w) = true ∧
    GetFromQueue (GetStopToken (storage w)) (queue w) = UndefinedBehaviour.
Proof.
  repeat split. do 2 eexists. repeat split.
Qed.

(** C3, at the input where the code departs from it.  Target size 1: the
    producers fill the queue to [MaxQueueSize], a consumer pops a number,
    a producer refills the queue, the consumer records the number, which
    requests the stop, and a producer that was waiting for room pushes.  The
    queue then holds [MaxQueueSize + 1] elements. *)
Theorem queue_exceeds_MaxQueueSize_after_stop :
  ∃ w0 w1 w,
    initial 1 0 = Some w0 ∧
    perform_all (replicate 1000 (OpSave 1)
                 ++ [OpGet; OpSave 1; OpProcess (mkArrival 0 0 1)]) w0 = Some w1 ∧
    Z.of_nat (length (queue w1)) = MaxQueueSize ∧
    GetStopToken (storage w1) = true ∧
    perform (OpSave 1) w1 = Some w ∧
    Z.of_nat (length (queue w)) = MaxQueueSize + 1.
Proof.
  do 3 eexists. split; [reflexivity|].
  split; [by vm_compute|]. by vm_compute.
Qed.

(** ** main *)


(** C9, as the code has it.  A target size that is not positive or exceeds
    [RAND_MAX] is turned down by [main]: it prints the bad-argument message
    and does nothing else, so neither the queue, the storage nor the
    randomizer is constructed and no thread is started. *)
Theorem main_rejects_bad_target_size RAND_MAX now n :
  n ≤ 0 ∨ RAND_MAX < n →
  main RAND_MAX now (Some (Ok n)) = [PrintBadArgument n] ∧
  Forall (λ e, constructs_or_spawns e = false) (main RAND_MAX now (Some (Ok n))).
Proof.
  intros Hbad.
  assert (main RAND_MAX now (Some (Ok n)) = [PrintBadArgument n]) as ->.
  { unfold main.
    destruct (Z.leb_spec n 0) as [?|Hpos]; [done|].
    destruct (Z.ltb_spec RAND_MAX n) as [?|Hle]; [done|]. lia. }
  split; [done|]. by repeat constructor.
Qed.

Lemma main_rejects_bad_target_size_witness :
  (32768 ≤ 0 ∨ 32767 < 32768) ∧
  main 32767 0 (Some (Ok 32768)) = [PrintBadArgument 32768] ∧
  Forall (λ e, constructs_or_spawns e = false) (main 32767 0 (Some (Ok 32768))).
Proof.
  split; [right; lia|].
  apply (main_rejects_bad_target_size 32767 0 32768). right. lia.
Defined.

(** C9 as stated fails on the constructor: with [RAND_MAX = 32767] the size
    32768 is out of bounds, yet [TStorage]'s constructor returns a table of
    that size and does not leave by an exception. *)
Lemma TStorage_ctor_does_not_validate :
  ¬ ((32768 ≤ 0 ∨ 32767 < 32768) → TStorage_ctor 32768 0 = Throws) ∧
  ∃ s, TStorage_ctor 32768 0 = Ok s ∧ StorageSize s = 32768.
Proof.
  split.
  - intros H. assert (32768 ≤ 0 ∨ 32767 < 32768) as Hbad by (right; lia).
    specialize (H Hbad). discriminate H.
  - eexists. split; reflexivity.
Qed.


(** * Further properties *)

(** ** The queue is first in, first out *)

(** X1. Whatever the stop states seen, a sequence of completed calls neither
    loses, invents nor reorders elements: what was in the queue followed by
    what was saved is what was got followed by what is left. *)
Theorem queue_calls_fifo calls : ∀ Q got Q',
  queue_calls calls Q = Returns got Q' →
  Q ++ saved calls = got ++ Q'.
Proof.
  induction calls as [|c rest IH]; intros Q got Q' Hrun; simpl in Hrun.
  - injection Hrun as <- <-. simpl. by rewrite app_nil_r.
  - destruct c as [element st|st].
    + destruct (SaveIntoQueue element st Q) as [|u Q1|] eqn:E; try done.
      unfold SaveIntoQueue in E.
      destruct (cv_wait _ _); [|done]. injection E as <- <-.
      apply IH in Hrun. simpl. by rewrite <- Hrun, <- app_assoc.
    + destruct (GetFromQueue st Q) as [|element Q1|] eqn:E; try done.
      destruct (queue_calls rest Q1) as [|got1 Q2|] eqn:E1; try done.
      injection Hrun as <- <-.
      unfold GetFromQueue in E. destruct (cv_wait _ _); [|done].
      destruct Q as [|x Q]; [done|]. injection E as <- <-.
      apply IH in E1. simpl. by rewrite E1.
Qed.

Lemma queue_calls_fifo_witness :
  queue_calls [QSave 5 false; QSave 7 false; QGet false; QSave 9 true; QGet true]
              [3] = Returns [3; 5] [7; 9] ∧
  [3] ++ saved [QSave 5 false; QSave 7 false; QGet false; QSave 9 true; QGet true]
    = [3; 5] ++ [7; 9].
Proof.
  split; [reflexivity|].
  apply (queue_calls_fifo
           [QSave 5 false; QSave 7 false; QGet false; QSave 9 true; QGet true]
           [3] [3; 5] [7; 9]).
  reflexivity.
Defined.

(** X2. While no call sees a stop request, a queue within its bound stays
    within its bound and no call has undefined behaviour: a sequence of
    calls either completes or is blocked. *)
Theorem queue_calls_without_stop calls : ∀ Q,
  Forall (λ c, call_stop c = false) calls →
  Z.of_nat (length Q) ≤ MaxQueueSize →
  queue_calls calls Q ≠ UndefinedBehaviour ∧
  ∀ got Q', queue_calls calls Q = Returns got Q' →
            Z.of_nat (length Q') ≤ MaxQueueSize.
Proof.
  induction calls as [|c rest IH]; intros Q Hstop Hlen; simpl.
  - split; [done|]. intros got Q' H. by injection H as <- <-.
  - apply Forall_cons in Hstop as [Hc Hrest].
    destruct c as [element st|st]; simpl in Hc; subst st.
    + destruct (SaveIntoQueue element false Q) as [|u Q1|] eqn:E.
      * split; [done|]. by intros got Q' H.
      * destruct u. apply SaveIntoQueue_bound in E. by apply IH.
      * unfold SaveIntoQueue in E. by destruct (cv_wait _ _).
    + destruct Q as [|x Q]; [by split|].
      rewrite GetFromQueue_Returns.
      assert (Z.of_nat (length Q) ≤ MaxQueueSize) as Hlen1
        by (simpl in Hlen; lia).
      destruct (IH Q Hrest Hlen1) as [Hub Hbound].
      destruct (queue_calls rest Q) as [|got1 Q2|] eqn:E1; try done.
      split; [done|]. intros got Q' H. injection H as <- <-.
      by apply (Hbound got1).
Qed.

Lemma queue_calls_without_stop_witness :
  Forall (λ c, call_stop c = false) [QSave 5 false; QGet false; QSave 7 false] ∧
  Z.of_nat (length (@nil Z)) ≤ MaxQueueSize ∧
  queue_calls [QSave 5 false; QGet false; QSave 7 false] [] ≠ UndefinedBehaviour ∧
  ∀ got Q', queue_calls [QSave 5 false; QGet false; QSave 7 false] [] = Returns got Q' →
            Z.of_nat (length Q') ≤ MaxQueueSize.
Proof.
  assert (Forall (λ c, call_stop c = false)
                 [QSave 5 false; QGet false; QSave 7 false]) as Hstop
    by (repeat constructor).
  assert (Z.of_nat (length (@nil Z)) ≤ MaxQueueSize) as Hlen by (by vm_compute).
  split; [exact Hstop|]. split; [exact Hlen|].
  exact (queue_calls_without_stop
           [QSave 5 false; QGet false; QSave 7 false] [] Hstop Hlen).
Defined.

(** ** What the table and the printed lines hold *)

Lemma ProcessAll_compose calls1 calls2 s s1 s2 out1 out2 :
  ProcessAll calls1 s = Ok (s1, out1) →
  ProcessAll calls2 s1 = Ok (s2, out2) →
  ProcessAll (calls1 ++ calls2) s = Ok (s2, out1 ++ out2).
Proof.
  revert s out1. induction calls1 as [|a rest IH]; intros s out1 H1 H2; simpl in *.
  - by injection H1 as <- <-.
  - destruct (ProcessArrival a s) as [[sa oa]| |]; try done.
    destruct (ProcessAll rest sa) as [[sb ob]| |] eqn:E; try done.
    injection H1 as <- <-.
    rewrite (IH sa ob E H2). by rewrite app_assoc.
Qed.

(** The three ways through [ProcessNext], as one case distinction. *)
Lemma ProcessNext_cases N s tid now element s' out :
  TStorage_inv N s →
  ProcessNext tid now element s = Ok (s', out) →
  (s' = s ∧ out = [] ∧
   (¬ (1 ≤ element ≤ N) ∨ is_filled element s = true)) ∨
  (1 ≤ element ≤ N ∧ is_filled element s = false ∧
   s' = recorded now element s ∧
   out = [ {| log_thread := tid; log_number := element;
              log_order := Counter s + 1;
              log_elapsed := to_ulong (microseconds (now - Start s)) |} ]).
Proof.
  intros Hinv Hstep.
  destruct (decide (1 ≤ element ≤ N)) as [Hel|Hout].
  - destruct (slot_of_in_range N s element Hinv Hel) as [d Hd].
    destruct (decide (Number d = 0)) as [Hempty|Hfull].
    + rewrite (ProcessNext_first N s tid now element d) in Hstep by done.
      injection Hstep as <- <-. right.
      assert (is_filled element s = false) as Hnf.
      { unfold is_filled. rewrite Hd, Hempty. done. }
      split; [done|]. split; [done|]. split; reflexivity.
    + rewrite (ProcessNext_duplicate N s tid now element d) in Hstep by done.
      injection Hstep as <- <-. left. repeat split; auto.
      right. apply is_filled_true. by exists d.
  - rewrite ProcessNext_out_of_range in Hstep
      by (by rewrite (inv_size _ _ Hinv)).
    injection Hstep as <- <-. left. repeat split; auto.
Qed.

(** A call leaves every filled slot as it is. *)
Lemma ProcessNext_keeps_filled N s tid now element s' out (i : nat) d :
  TStorage_inv N s →
  ProcessNext tid now element s = Ok (s', out) →
  Storage s !! i = Some d → filled d →
  Storage s' !! i = Some d.
Proof.
  intros Hinv Hstep Hd Hfull.
  destruct (ProcessNext_cases N s _ _ _ _ _ Hinv Hstep)
    as [(-> & _ & _)|(Hel & Hnf & -> & _)]; [done|].
  unfold recorded. simpl.
  rewrite list_lookup_insert_ne; [done|].
  intros <-. unfold is_filled, slot_of in Hnf. rewrite Hd in Hnf.
  apply negb_false_iff, Z.eqb_eq in Hnf. by destruct Hfull.
Qed.

Lemma ProcessAll_keeps_filled N calls : ∀ s s' out (i : nat) d,
  TStorage_inv N s →
  ProcessAll calls s = Ok (s', out) →
  Storage s !! i = Some d → filled d →
  Storage s' !! i = Some d.
Proof.
  induction calls as [|a rest IH]; intros s s' out i d Hinv Hrun Hd Hfull;
    simpl in Hrun.
  - by injection Hrun as <- <-.
  - unfold ProcessArrival in Hrun.
    destruct (ProcessNext_inv N s (arr_thread a) (arr_clock a) (arr_element a) Hinv)
      as (s1 & out1 & Hstep & Hinv1).
    rewrite Hstep in Hrun.
    destruct (ProcessAll rest s1) as [[s2 out2]| |] eqn:E; try done.
    injection Hrun as <- <-.
    apply (IH s1 s2 out2 i d Hinv1 E); [|done].
    by apply (ProcessNext_keeps_filled N s _ _ _ _ _ i d Hinv Hstep).
Qed.

(** X3. A slot is written once: whatever arrives after a slot was filled,
    the slot keeps its number, its order and its time. *)
Theorem filled_slot_is_never_overwritten N t0 pre post s (i : nat) d :
  0 ≤ N ≤ UINT_MAX →
  reached N t0 pre s →
  Storage s !! i = Some d → filled d →
  ∃ s', reached N t0 (pre ++ post) s' ∧ Storage s' !! i = Some d.
Proof.
  intros HN (s0 & out & Hs0 & Hrun) Hd Hfull.
  destruct (TStorage_ctor_inv N t0 HN) as (s0' & Hs0' & Hinv0).
  assert (s0' = s0) as -> by congruence.
  destruct (ProcessAll_inv N pre s0 Hinv0) as (s1 & out1 & Hrun1 & Hinv).
  assert (s1 = s) as -> by congruence.
  destruct (ProcessAll_inv N post s Hinv) as (s' & out' & Hrun' & _).
  exists s'. split.
  - exists s0, (out ++ out'). split; [done|].
    by apply (ProcessAll_compose pre post s0 s s').
  - by apply (ProcessAll_keeps_filled N post s s' out' i d).
Qed.

Lemma filled_slot_is_never_overwritten_witness :
  0 ≤ 3 ≤ UINT_MAX ∧
  reached 3 0 (arrivals [2]) (mkStorage
    [mkRandomData 0 0 0; mkRandomData 2 0 1; mkRandomData 0 0 0] 3 1 false 0) ∧
  (∃ s', reached 3 0 (arrivals [2] ++ [mkArrival 5 9000 2; mkArrival 6 9500 3]) s' ∧
         Storage s' !! 1%nat = Some (mkRandomData 2 0 1)).
Proof.
  assert (0 ≤ 3 ≤ UINT_MAX) as HN by (by vm_compute).
  assert (reached 3 0 (arrivals [2]) (mkStorage
    [mkRandomData 0 0 0; mkRandomData 2 0 1; mkRandomData 0 0 0] 3 1 false 0))
    as Hreach by (do 2 eexists; split; reflexivity).
  split; [exact HN|]. split; [exact Hreach|].
  apply (filled_slot_is_never_overwritten 3 0 (arrivals [2])
           [mkArrival 5 9000 2; mkArrival 6 9500 3] _ 1%nat
           (mkRandomData 2 0 1) HN Hreach); [reflexivity|].
  unfold filled. simpl. lia.
Defined.

(** X4. On a table of target size [N], the slot of a value of [1..N] is
    filled at the end of a run exactly when the value arrived during it. *)
Theorem slot_filled_iff_arrived N t0 calls v :
  0 ≤ N ≤ UINT_MAX → 1 ≤ v ≤ N →
  ∃ s, reached N t0 calls s ∧
       is_filled v s = bool_decide (v ∈ arr_element <$> calls).
Proof.
  intros HN Hv.
  destruct (TStorage_ctor_inv N t0 HN) as (s0 & Hs0 & Hinv0).
  destruct (ProcessAll_inv N calls s0 Hinv0) as (s & out & Hrun & _).
  exists s. split; [by exists s0, out|].
  rewrite (ProcessAll_is_filled N calls v s0 s out Hinv0 Hv Hrun).
  by rewrite (is_filled_ctor N t0 s0 v Hs0).
Qed.

Lemma slot_filled_iff_arrived_witness :
  0 ≤ 3 ≤ UINT_MAX ∧ 1 ≤ 2 ≤ 3 ∧
  ∃ s, reached 3 0 (arrivals [3; 3; 1]) s ∧
       is_filled 2 s = bool_decide (2 ∈ arr_element <$> arrivals [3; 3; 1]).
Proof.
  split; [by vm_compute|]. split; [lia|].
  apply (slot_filled_iff_arrived 3 0 (arrivals [3; 3; 1]) 2); [by vm_compute|lia].
Defined.

(** The lines printed by a run from a well-formed storage in which exactly
    the values of [seen] have their slot filled. *)
Lemma ProcessAll_log N calls : ∀ s s' out seen,
  TStorage_inv N s →
  (∀ v, 1 ≤ v ≤ N → is_filled v s = true ↔ v ∈ seen) →
  ProcessAll calls s = Ok (s', out) →
  log_number <$> out = first_arrivals N seen (arr_element <$> calls) ∧
  log_order <$> out = seqZ (Counter s + 1) (Z.of_nat (length out)) ∧
  Counter s' = Counter s + Z.of_nat (length out).
Proof.
  induction calls as [|a rest IH]; intros s s' out seen Hinv Hseen Hrun;
    simpl in Hrun.
  - injection Hrun as <- <-. simpl. split; [done|]. split; [done|]. lia.
  - unfold ProcessArrival in Hrun.
    destruct (ProcessNext_inv N s (arr_thread a) (arr_clock a) (arr_element a) Hinv)
      as (s1 & out1 & Hstep & Hinv1).
    rewrite Hstep in Hrun.
    destruct (ProcessAll rest s1) as [[s2 out2]| |] eqn:E; try done.
    injection Hrun as <- <-. rewrite fmap_cons. simpl.
    destruct (ProcessNext_cases N s _ _ _ _ _ Hinv Hstep)
      as [(-> & -> & Hskip)|(Hel & Hnf & Hs1 & ->)].
    + assert (bool_decide (1 ≤ arr_element a ≤ N)
              && negb (bool_decide (arr_element a ∈ seen)) = false) as ->.
      { apply andb_false_iff. destruct Hskip as [Hout|Hfull].
        - left. by apply bool_decide_eq_false_2.
        - destruct (decide (1 ≤ arr_element a ≤ N)) as [Hel|Hout].
          + right. apply negb_false_iff, bool_decide_eq_true_2.
            by apply Hseen.
          + left. by apply bool_decide_eq_false_2. }
      simpl. by apply IH.
    + assert (bool_decide (1 ≤ arr_element a ≤ N)
              && negb (bool_decide (arr_element a ∈ seen)) = true) as ->.
      { apply andb_true_iff. split; [by apply bool_decide_eq_true_2|].
        apply negb_true_iff, bool_decide_eq_false_2. intros Hin.
        apply Hseen in Hin; [|done]. congruence. }
      assert (∀ v, 1 ≤ v ≤ N →
                is_filled v s1 = true ↔ v ∈ arr_element a :: seen) as Hseen1.
      { intros v Hv.
        rewrite (ProcessNext_is_filled N s _ _ _ _ _ v Hinv Hv Hstep).
        rewrite orb_true_iff, bool_decide_eq_true, elem_of_cons.
        rewrite (Hseen v Hv). split; intros [H|H]; auto. }
      destruct (IH s1 s2 out2 _ Hinv1 Hseen1 E) as (Hnum & Hord & Hcnt).
      assert (Counter s1 = Counter s + 1) as Hc1 by (by rewrite Hs1).
      rewrite Hc1 in Hord, Hcnt.
      rewrite <- (List.app_comm_cons [] out2), app_nil_l.
      rewrite !fmap_cons, length_cons. simpl.
      rewrite Hnum, Hord. split; [done|]. split; [|lia].
      rewrite (seqZ_cons (Counter s + 1)) by lia.
      f_equal. f_equal; lia.
Qed.

(** X5. The lines printed during a run are one per value of [1..N], in the
    order in which the values first arrived, without repeats; their orders
    count 1, 2, 3, ... and the counter ends as the number of lines. *)
Theorem printed_lines_follow_first_arrivals N t0 calls :
  0 ≤ N ≤ UINT_MAX →
  ∃ s0 s out,
    TStorage_ctor N t0 = Ok s0 ∧ ProcessAll calls s0 = Ok (s, out) ∧
    log_number <$> out = first_arrivals N [] (arr_element <$> calls) ∧
    log_order <$> out = seqZ 1 (Counter s) ∧
    Counter s = Z.of_nat (length out).
Proof.
  intros HN.
  destruct (TStorage_ctor_inv N t0 HN) as (s0 & Hs0 & Hinv0).
  destruct (ProcessAll_inv N calls s0 Hinv0) as (s & out & Hrun & _).
  exists s0, s, out. split; [done|]. split; [done|].
  assert (∀ v, 1 ≤ v ≤ N → is_filled v s0 = true ↔ v ∈ @nil Z) as Hseen.
  { intros v _. rewrite (is_filled_ctor N t0 s0 v Hs0).
    split; [done|]. by intros ?%not_elem_of_nil. }
  destruct (ProcessAll_log N calls s0 s out [] Hinv0 Hseen Hrun)
    as (Hnum & Hord & Hcnt).
  assert (Counter s0 = 0) as Hc0 by (by injection Hs0 as <-).
  rewrite Hc0 in Hord, Hcnt. simpl in Hord, Hcnt.
  split; [done|]. split; [|done]. by rewrite Hcnt.
Qed.

Lemma printed_lines_follow_first_arrivals_witness :
  0 ≤ 3 ≤ UINT_MAX ∧
  ∃ s0 s out,
    TStorage_ctor 3 0 = Ok s0 ∧
    ProcessAll (arrivals [2; 7; 2; 3; 0; 3; 1]) s0 = Ok (s, out) ∧
    log_number <$> out = [2; 3; 1] ∧
    log_order <$> out = seqZ 1 (Counter s) ∧
    Counter s = Z.of_nat (length out).
Proof.
  split; [by vm_compute|].
  apply (printed_lines_follow_first_arrivals 3 0 (arrivals [2; 7; 2; 3; 0; 3; 1])).
  by vm_compute.
Defined.

Lemma ProcessAll_line_is_slot N calls : ∀ s s' out line,
  TStorage_inv N s →
  ProcessAll calls s = Ok (s', out) →
  line ∈ out →
  slot_of (log_number line) s' =
    Some {| Number := log_number line;
            TimeToGenerate := log_elapsed line;
            Order := log_order line |}.
Proof.
  induction calls as [|a rest IH]; intros s s' out line Hinv Hrun Hin;
    simpl in Hrun.
  - injection Hrun as <- <-. by apply not_elem_of_nil in Hin.
  - unfold ProcessArrival in Hrun.
    destruct (ProcessNext_inv N s (arr_thread a) (arr_clock a) (arr_element a) Hinv)
      as (s1 & out1 & Hstep & Hinv1).
    rewrite Hstep in Hrun.
    destruct (ProcessAll rest s1) as [[s2 out2]| |] eqn:E; try done.
    injection Hrun as <- <-.
    destruct (ProcessNext_cases N s _ _ _ _ _ Hinv Hstep)
      as [(-> & -> & _)|(Hel & Hnf & Hs1 & ->)].
    + by apply (IH s s2 out2).
    + simpl in Hin. apply elem_of_cons in Hin as [->|Hin];
        [|by apply (IH s1 s2 out2)].
      simpl. unfold slot_of.
      apply (ProcessAll_keeps_filled N rest s1 s2 out2 _ _ Hinv1 E).
      * fold (slot_of (arr_element a) s1). rewrite Hs1.
        rewrite (slot_of_recorded N) by done. by rewrite decide_True.
      * unfold filled. simpl. lia.
Qed.

(** X6. Every line printed during a run is what the slot of its number
    holds at the end of the run: the same number, order and elapsed time. *)
Theorem printed_line_is_its_slot N t0 calls :
  0 ≤ N ≤ UINT_MAX →
  ∃ s0 s out,
    TStorage_ctor N t0 = Ok s0 ∧ ProcessAll calls s0 = Ok (s, out) ∧
    ∀ line, line ∈ out →
      slot_of (log_number line) s =
        Some {| Number := log_number line;
                TimeToGenerate := log_elapsed line;
                Order := log_order line |}.
Proof.
  intros HN.
  destruct (TStorage_ctor_inv N t0 HN) as (s0 & Hs0 & Hinv0).
  destruct (ProcessAll_inv N calls s0 Hinv0) as (s & out & Hrun & _).
  exists s0, s, out. split; [done|]. split; [done|].
  intros line Hin. by apply (ProcessAll_line_is_slot N calls s0 s out).
Qed.

Lemma printed_line_is_its_slot_witness :
  0 ≤ 3 ≤ UINT_MAX ∧
  ∃ s0 s out,
    TStorage_ctor 3 1000 = Ok s0 ∧
    ProcessAll [mkArrival 1 5000 2; mkArrival 2 6000 2; mkArrival 1 9000 3] s0
      = Ok (s, out) ∧
    ∀ line, line ∈ out →
      slot_of (log_number line) s =
        Some {| Number := log_number line;
                TimeToGenerate := log_elapsed line;
                Order := log_order line |}.
Proof.
  split; [by vm_compute|].
  apply (printed_line_is_its_slot 3 1000
           [mkArrival 1 5000 2; mkArrival 2 6000 2; mkArrival 1 9000 3]).
  by vm_compute.
Defined.

(** ** The recorded times *)













(** ** The average of main *)




(** ** The arguments of main *)


(** ** The threads of main *)

Lemma saving_insert (l : list producer_pc) : ∀ (i : nat) pc pc',
  l !! i = Some pc →
  (length (filter saving (<[i := pc']> l)) + Nat.b2n (bool_decide (saving pc))
   = length (filter saving l) + Nat.b2n (bool_decide (saving pc')))%nat.
Proof.
  induction l as [|x l IH]; intros i pc pc' Hpc; [done|].
  destruct i as [|i]; simpl in Hpc.
  - injection Hpc as ->.
    change (<[0%nat := pc']> (pc :: l)) with (pc' :: l).
    rewrite !filter_cons.
    destruct pc, pc'; simpl; lia.
  - change (<[S i := pc']> (x :: l)) with (x :: <[i := pc']> l).
    rewrite !filter_cons. specialize (IH i pc pc' Hpc).
    destruct (decide (saving x)); simpl; lia.
Qed.

Lemma threads_of_main_inv n t0 σ0 :
  1 ≤ n ≤ UINT_MAX →
  threads_of_main n t0 = Some σ0 →
  system_inv n σ0 ∧ length (producers σ0) = thread_number.
Proof.
  intros Hn H. unfold threads_of_main, initial in H.
  rewrite to_uint_small in H by lia.
  destruct (TStorage_ctor_inv n t0) as (s0 & Hs0 & Hinv0); [lia|].
  rewrite Hs0 in H. injection H as <-. simpl.
  split; [|done].
  unfold system_inv. simpl.
  assert (StopSource s0 = false) as -> by (by injection Hs0 as <-).
  split; [lia|]. split; [done|]. split; [done|]. split; [done|].
  split; [by repeat constructor|]. split; [by repeat constructor|].
  split; [by vm_compute|]. intros _. split; by repeat constructor.
Qed.

Lemma system_inv_intro N σ :
  1 ≤ N →
  TStorage_inv N (storage (sys_shared σ)) →
  sys_rzr σ = mkRandomizer 1 N →
  Forall (λ v, 1 ≤ v ≤ N) (queue (sys_shared σ)) →
  Forall (producer_ok N) (producers σ) →
  Forall (consumer_ok N) (consumers σ) →
  (if StopSource (storage (sys_shared σ))
   then Z.of_nat (length (queue (sys_shared σ)))
        + Z.of_nat (length (filter saving (producers σ)))
        ≤ MaxQueueSize + Z.of_nat (length (producers σ))
   else Z.of_nat (length (queue (sys_shared σ))) ≤ MaxQueueSize) →
  (StopSource (storage (sys_shared σ)) = false →
   Forall (λ pc, pc ≠ PDone) (producers σ) ∧
   Forall (λ pc, pc ≠ CDone) (consumers σ)) →
  system_inv N σ.
Proof. intros H1 H2 H3 H4 H5 H6 H7 H8. by repeat (split; [assumption|]). Qed.

(** A step of a producer that can be taken keeps the invariant. *)
Lemma producer_step_inv N i next σ σ' :
  system_inv N σ → step (ProducerMove i next) σ = Moves σ' →
  system_inv N σ'.
Proof.
  intros (HN & Hinv & Hrzr & Hq & Hp & Hc & Hbound & Hdone) Hstep.
  simpl in Hstep.
  destruct (producers σ !! i) as [pc|] eqn:Hpc; [|done].
  pose proof (saving_insert (producers σ) i pc) as Hcount.
  destruct pc as [|element|]; simpl in Hstep; [| |done].
  - (* the test of the loop *)
    unfold GetStopToken in Hstep.
    destruct (StopSource (storage (sys_shared σ))) eqn:Hstop.
    + injection Hstep as <-.
      specialize (Hcount PDone Hpc). simpl in Hcount.
      apply system_inv_intro; simpl; try done.
      * by apply Forall_insert.
      * rewrite Hstop, length_insert. lia.
      * by rewrite Hstop.
    + destruct (bool_decide (GetNext (sys_rzr σ) next)) eqn:Hnext; [|done].
      injection Hstep as <-.
      apply bool_decide_eq_true in Hnext. rewrite Hrzr in Hnext.
      unfold GetNext in Hnext. simpl in Hnext.
      destruct (Hdone eq_refl) as [Hpd Hcd].
      apply system_inv_intro; simpl; try done.
      * by apply Forall_insert.
      * by rewrite Hstop.
      * intros _. split; [|done]. by apply Forall_insert.
  - (* inside SaveIntoQueue *)
    destruct (SaveIntoQueue element _ _) as [|u Q|] eqn:Hsave; try done.
    injection Hstep as <-.
    unfold SaveIntoQueue in Hsave.
    destruct (cv_wait _ _) as [b|] eqn:Hwait; [|done].
    injection Hsave as <- <-.
    pose proof (Forall_lookup_1 _ _ _ _ Hp Hpc) as Hel. simpl in Hel.
    specialize (Hcount PTest Hpc). simpl in Hcount.
    unfold GetStopToken in Hwait.
    apply system_inv_intro; simpl; try done.
    + apply Forall_app. split; [done|]. by apply Forall_singleton.
    + by apply Forall_insert.
    + rewrite length_app, length_insert. simpl.
      destruct (StopSource (storage (sys_shared σ))) eqn:Hstop; [lia|].
      unfold cv_wait in Hwait.
      destruct (Z.ltb_spec (Z.of_nat (length (queue (sys_shared σ)))) MaxQueueSize)
        as [Hlt|Hge]; [lia|done].
    + intros Hstop. destruct (Hdone Hstop) as [Hpd Hcd].
      split; [|done]. by apply Forall_insert.
Qed.

(** A step of a consumer that can be taken keeps the invariant. *)
Lemma consumer_step_inv N i tid now σ σ' :
  system_inv N σ → step (ConsumerMove i tid now) σ = Moves σ' →
  system_inv N σ'.
Proof.
  intros (HN & Hinv & Hrzr & Hq & Hp & Hc & Hbound & Hdone) Hstep.
  simpl in Hstep.
  destruct (consumers σ !! i) as [pc|] eqn:Hpc; [|done].
  destruct pc as [| |element|]; simpl in Hstep; [| | |done].
  - (* the test of the loop *)
    unfold GetStopToken in Hstep.
    destruct (StopSource (storage (sys_shared σ))) eqn:Hstop.
    + injection Hstep as <-.
      apply system_inv_intro; simpl; try done.
      * by apply Forall_insert.
      * by rewrite Hstop.
      * by rewrite Hstop.
    + injection Hstep as <-.
      destruct (Hdone eq_refl) as [Hpd Hcd].
      apply system_inv_intro; simpl; try done.
      * by apply Forall_insert.
      * by rewrite Hstop.
      * intros _. split; [done|]. by apply Forall_insert.
  - (* inside GetFromQueue *)
    destruct (GetFromQueue _ _) as [|element Q|] eqn:Hget; try done.
    injection Hstep as <-.
    unfold GetFromQueue in Hget.
    destruct (cv_wait _ _) as [b|]; [|done].
    destruct (queue (sys_shared σ)) as [|x Q0] eqn:HQ; [done|].
    injection Hget as <- <-.
    apply Forall_cons in Hq as [Hx Hq].
    simpl in Hbound.
    apply system_inv_intro; simpl; try done.
    + by apply Forall_insert.
    + destruct (StopSource (storage (sys_shared σ))); lia.
    + intros Hstop. destruct (Hdone Hstop) as [Hpd Hcd].
      split; [done|]. by apply Forall_insert.
  - (* the call of ProcessNext *)
    destruct (ProcessNext_inv N (storage (sys_shared σ)) tid now element Hinv)
      as (s' & out & Hnext & Hinv').
    rewrite Hnext in Hstep. injection Hstep as <-.
    pose proof (ProcessNext_stop_mono N _ _ _ _ _ _ Hinv Hinv' Hnext) as Hmono.
    pose proof (length_filter saving (producers σ)) as Hfl.
    assert (StopSource s' = false →
            StopSource (storage (sys_shared σ)) = false) as Hback.
    { intros Hs'. destruct (StopSource (storage (sys_shared σ))); [|done].
      rewrite Hmono in Hs'; done. }
    apply system_inv_intro; simpl; try done.
    + by apply Forall_insert.
    + destruct (StopSource s') eqn:Hstop'.
      * destruct (StopSource (storage (sys_shared σ))); lia.
      * by rewrite (Hback eq_refl) in Hbound.
    + intros Hstop'. destruct (Hdone (Hback Hstop')) as [Hpd Hcd].
      split; [done|]. by apply Forall_insert.
Qed.

Lemma step_producers_length m σ σ' :
  step m σ = Moves σ' → length (producers σ') = length (producers σ).
Proof.
  intros Hstep. destruct m as [i next|i tid now]; simpl in Hstep.
  - destruct (producers σ !! i) as [pc|]; [|done].
    destruct (producer_l _ _ _ _) as [[pc' w]| |]; try done.
    injection Hstep as <-. simpl. by rewrite length_insert.
  - destruct (consumers σ !! i) as [pc|]; [|done].
    destruct (consumer_l _ _ _ _) as [[pc' w]| |]; try done.
    by injection Hstep as <-.
Qed.

(** A step that can be taken keeps the invariant and the number of
    producers. *)
Lemma step_inv N m σ σ' :
  system_inv N σ → step m σ = Moves σ' →
  system_inv N σ' ∧ length (producers σ') = length (producers σ).
Proof.
  intros Hinv Hstep. split; [|by apply (step_producers_length m)].
  destruct m as [i next|i tid now].
  - by apply (producer_step_inv N i next σ).
  - by apply (consumer_step_inv N i tid now σ).
Qed.

Lemma steps_inv N ms : ∀ σ σ',
  system_inv N σ → steps ms σ = Moves σ' →
  system_inv N σ' ∧ length (producers σ') = length (producers σ).
Proof.
  induction ms as [|m rest IH]; intros σ σ' Hinv Hrun; simpl in Hrun.
  - by injection Hrun as <-.
  - destruct (step m σ) as [σ1| |] eqn:Hstep; try done.
    destruct (step_inv N m σ σ1 Hinv Hstep) as [Hinv1 Hlen1].
    destruct (IH σ1 σ' Hinv1 Hrun) as [Hinv' Hlen'].
    split; [done|]. congruence.
Qed.

Lemma reachable_inv n t0 σ0 ms σ :
  1 ≤ n ≤ UINT_MAX →
  threads_of_main n t0 = Some σ0 →
  steps ms σ0 = Moves σ →
  system_inv n σ ∧ length (producers σ) = thread_number.
Proof.
  intros Hn Hstart Hrun.
  destruct (threads_of_main_inv n t0 σ0 Hn Hstart) as [Hinv0 Hlen0].
  destruct (steps_inv n ms σ0 σ Hinv0 Hrun) as [Hinv Hlen].
  split; [done|]. congruence.
Qed.



(** X11. In a run of [main] the queue holds at most [MaxQueueSize] elements
    as long as no stop is requested, and never more than [MaxQueueSize] plus
    one element per producer thread. *)
Theorem queue_length_in_main n t0 σ0 ms σ :
  1 ≤ n ≤ UINT_MAX →
  threads_of_main n t0 = Some σ0 →
  steps ms σ0 = Moves σ →
  Z.of_nat (length (queue (sys_shared σ)))
    ≤ MaxQueueSize + Z.of_nat thread_number ∧
  (GetStopToken (storage (sys_shared σ)) = false →
   Z.of_nat (length (queue (sys_shared σ))) ≤ MaxQueueSize).
Proof.
  intros Hn Hstart Hrun.
  destruct (reachable_inv n t0 σ0 ms σ Hn Hstart Hrun)
    as [(_ & _ & _ & _ & _ & _ & Hbound & _) Hlen].
  unfold GetStopToken. rewrite Hlen in Hbound.
  destruct (StopSource (storage (sys_shared σ))).
  - split; [lia|done].
  - split; [lia|done].
Qed.

Lemma queue_length_in_main_witness :
  1 ≤ 2 ≤ UINT_MAX ∧
  ∃ σ0 σ,
    threads_of_main 2 0 = Some σ0 ∧
    steps [ProducerMove 0 2; ProducerMove 1 1; ProducerMove 0 0;
           ProducerMove 1 0; ConsumerMove 2 0 0; ConsumerMove 2 0 0] σ0 = Moves σ ∧
    Z.of_nat (length (queue (sys_shared σ)))
      ≤ MaxQueueSize + Z.of_nat thread_number ∧
    (GetStopToken (storage (sys_shared σ)) = false →
     Z.of_nat (length (queue (sys_shared σ))) ≤ MaxQueueSize).
Proof.
  assert (1 ≤ 2 ≤ UINT_MAX) as Hn by (by vm_compute).
  split; [exact Hn|]. do 2 eexists.
  split; [reflexivity|]. split; [reflexivity|].
  eapply (queue_length_in_main 2 0 _
            [ProducerMove 0 2; ProducerMove 1 1; ProducerMove 0 0;
             ProducerMove 1 0; ConsumerMove 2 0 0; ConsumerMove 2 0 0] _ Hn);
    reflexivity.
Defined.

Lemma all_slots_filled N s :
  TStorage_inv N s → Counter s = N → Forall filled (Storage s).
Proof.
  intros Hinv Hfull. apply Forall_forall. intros d Hd.
  destruct (decide (filled d)) as [|Hempty]; [done|].
  pose proof (length_filter_lt filled (Storage s) d Hd Hempty) as Hlt.
  pose proof (inv_filledCount N s Hinv) as Hcount. unfold filledCount in Hcount.
  pose proof (inv_length N s Hinv). pose proof (inv_range N s Hinv). lia.
Qed.



(** X13. In a run of [main] a thread leaves its loop only after the stop
    was requested, and then the table is complete: as soon as one thread
    has returned, and so when all are joined, every slot is filled and the
    counter is the target size. *)
Theorem thread_returns_only_when_table_complete n t0 σ0 ms σ :
  1 ≤ n ≤ UINT_MAX →
  threads_of_main n t0 = Some σ0 →
  steps ms σ0 = Moves σ →
  some_thread_returned σ →
  GetStopToken (storage (sys_shared σ)) = true ∧
  Counter (storage (sys_shared σ)) = n ∧
  filledCount (storage (sys_shared σ)) = n ∧
  Forall filled (Storage (storage (sys_shared σ))).
Proof.
  intros Hn Hstart Hrun Hret.
  destruct (reachable_inv n t0 σ0 ms σ Hn Hstart Hrun)
    as [(_ & Hinv & _ & _ & _ & _ & _ & Hdone) _].
  unfold GetStopToken.
  destruct (StopSource (storage (sys_shared σ))) eqn:Hstop.
  - apply (inv_stop _ _ Hinv) in Hstop as [_ Hfull].
    rewrite (inv_filledCount n _ Hinv).
    split; [done|]. split; [done|]. split; [done|].
    by apply (all_slots_filled n).
  - destruct (Hdone eq_refl) as [Hpd Hcd].
    rewrite Forall_forall in Hpd. rewrite Forall_forall in Hcd.
    destruct Hret as [Hin|Hin].
    + by destruct (Hpd _ Hin).
    + by destruct (Hcd _ Hin).
Qed.

Lemma thread_returns_only_when_table_complete_witness :
  1 ≤ 1 ≤ UINT_MAX ∧
  ∃ σ0 σ,
    threads_of_main 1 0 = Some σ0 ∧
    steps [ProducerMove 0 1; ProducerMove 0 0; ConsumerMove 0 0 0;
           ConsumerMove 0 0 0; ConsumerMove 0 7 5000; ProducerMove 2 0] σ0
      = Moves σ ∧
    some_thread_returned σ ∧
    GetStopToken (storage (sys_shared σ)) = true ∧
    Counter (storage (sys_shared σ)) = 1 ∧
    filledCount (storage (sys_shared σ)) = 1 ∧
    Forall filled (Storage (storage (sys_shared σ))).
Proof.
  assert (1 ≤ 1 ≤ UINT_MAX) as Hn by (by vm_compute).
  split; [exact Hn|]. do 2 eexists.
  split; [reflexivity|]. split; [reflexivity|].
  assert (some_thread_returned
            {| sys_shared := {| queue := [];
                                storage := mkStorage [mkRandomData 1 5 1] 1 1 true 5000 |};
               sys_rzr := mkRandomizer 1 1;
               producers := [PTest; PTest; PDone];
               consumers := [CTest; CTest; CTest] |}) as Hret.
  { left. simpl. apply elem_of_cons. right. apply elem_of_cons. right.
    apply elem_of_cons. by left. }
  split; [exact Hret|].
  eapply (thread_returns_only_when_table_complete 1 0 _
            [ProducerMove 0 1; ProducerMove 0 0; ConsumerMove 0 0 0;
             ConsumerMove 0 0 0; ConsumerMove 0 7 5000; ProducerMove 2 0]
            _ Hn); [reflexivity|reflexivity|exact Hret].
Defined.

Lemma step_consumers_length m σ σ' :
  step m σ = Moves σ' → length (consumers σ') = length (consumers σ).
Proof.
  intros Hstep. destruct m as [i next|i tid now]; simpl in Hstep.
  - destruct (producers σ !! i) as [pc|]; [|done].
    destruct (producer_l _ _ _ _) as [[pc' w]| |]; try done.
    by injection Hstep as <-.
  - destruct (consumers σ !! i) as [pc|]; [|done].
    destruct (consumer_l _ _ _ _) as [[pc' w]| |]; try done.
    injection Hstep as <-. simpl. by rewrite length_insert.
Qed.

Lemma steps_consumers_length ms : ∀ σ σ',
  steps ms σ = Moves σ' → length (consumers σ') = length (consumers σ).
Proof.
  induction ms as [|m rest IH]; intros σ σ' Hrun; simpl in Hrun.
  - by injection Hrun as <-.
  - destruct (step m σ) as [σ1| |] eqn:Hstep; try done.
    rewrite (IH σ1 σ' Hrun). by apply (step_consumers_length m).
Qed.

(** X14. No deadlock: in a run of [main], as long as no stop is requested
    some thread can take a step.  (The producers are blocked only while the
    queue is full and the consumers only while it is empty.) *)
Theorem some_thread_can_move_before_stop n t0 σ0 ms σ :
  1 ≤ n ≤ UINT_MAX →
  threads_of_main n t0 = Some σ0 →
  steps ms σ0 = Moves σ →
  GetStopToken (storage (sys_shared σ)) = false →
  ∃ m σ', step m σ = Moves σ'.
Proof.
  intros Hn Hstart Hrun Hstop.
  destruct (reachable_inv n t0 σ0 ms σ Hn Hstart Hrun)
    as [(_ & Hinv & Hrzr & _ & _ & _ & _ & Hdone) Hlen].
  pose proof (steps_consumers_length ms σ0 σ Hrun) as Hclen.
  assert (length (consumers σ0) = thread_number) as Hclen0.
  { unfold threads_of_main in Hstart.
    destruct (initial _ _); [|done]. by injection Hstart as <-. }
  rewrite Hclen0 in Hclen.
  destruct (Hdone Hstop) as [Hpd Hcd].
  destruct (lookup_lt_is_Some_2 (producers σ) 0%nat) as [pc Hpc];
    [rewrite Hlen; unfold thread_number; lia|].
  destruct (lookup_lt_is_Some_2 (consumers σ) 0%nat) as [cc Hcc];
    [rewrite Hclen; unfold thread_number; lia|].
  destruct pc as [|element|].
  - exists (ProducerMove 0 1). eexists. simpl. rewrite Hpc. simpl.
    rewrite Hstop, Hrzr.
    rewrite bool_decide_eq_true_2; [done|]. unfold GetNext. simpl. lia.
  - destruct (decide (Z.of_nat (length (queue (sys_shared σ))) < MaxQueueSize))
      as [Hroom|Hfull].
    + exists (ProducerMove 0 0). eexists. simpl. rewrite Hpc. simpl.
      rewrite (SaveIntoQueue_Returns element _ _ (or_intror Hroom)). done.
    + destruct (queue (sys_shared σ)) as [|x Q] eqn:HQ;
        [simpl in Hfull; unfold MaxQueueSize in Hfull; lia|].
      destruct cc as [| |celement|].
      * exists (ConsumerMove 0 0 0). eexists. simpl. rewrite Hcc. simpl.
        by rewrite Hstop.
      * exists (ConsumerMove 0 0 0). eexists. simpl. rewrite Hcc. simpl.
        by rewrite HQ, GetFromQueue_Returns.
      * destruct (ProcessNext_inv n (storage (sys_shared σ)) 0 0 celement Hinv)
          as (s' & out & Hnext & _).
        exists (ConsumerMove 0 0 0). eexists. simpl. rewrite Hcc. simpl.
        by rewrite Hnext.
      * rewrite Forall_forall in Hcd. destruct (Hcd CDone); [|done].
        apply list_elem_of_lookup. eauto.
  - rewrite Forall_forall in Hpd. destruct (Hpd PDone); [|done].
    apply list_elem_of_lookup. eauto.
Qed.

Lemma some_thread_can_move_before_stop_witness :
  1 ≤ 2 ≤ UINT_MAX ∧
  ∃ σ0 σ,
    threads_of_main 2 0 = Some σ0 ∧
    steps [ProducerMove 0 2; ProducerMove 1 1; ProducerMove 0 0;
           ConsumerMove 2 0 0; ConsumerMove 2 0 0] σ0 = Moves σ ∧
    GetStopToken (storage (sys_shared σ)) = false ∧
    ∃ m σ', step m σ = Moves σ'.
Proof.
  assert (1 ≤ 2 ≤ UINT_MAX) as Hn by (by vm_compute).
  split; [exact Hn|]. do 2 eexists.
  split; [reflexivity|]. split; [reflexivity|]. split; [reflexivity|].
  eapply (some_thread_can_move_before_stop 2 0 _
            [ProducerMove 0 2; ProducerMove 1 1; ProducerMove 0 0;
             ConsumerMove 2 0 0; ConsumerMove 2 0 0] _ Hn);
    reflexivity.
Defined.

(** X15. The stop request reaches every thread: in a run of [main], once
    the stop is requested no thread is blocked.  A producer that has not
    returned can take its step, full queue or not; the step of a consumer
    that has not returned is never refused (it is taken, or it is the
    undefined read of the empty queue). *)
Theorem stop_unblocks_every_thread n t0 σ0 ms σ :
  1 ≤ n ≤ UINT_MAX →
  threads_of_main n t0 = Some σ0 →
  steps ms σ0 = Moves σ →
  GetStopToken (storage (sys_shared σ)) = true →
  (∀ i pc next, producers σ !! i = Some pc → pc ≠ PDone →
     ∃ σ', step (ProducerMove i next) σ = Moves σ') ∧
  (∀ i pc tid now, consumers σ !! i = Some pc → pc ≠ CDone →
     step (ConsumerMove i tid now) σ ≠ NotEnabled).
Proof.
  intros Hn Hstart Hrun Hstop.
  destruct (reachable_inv n t0 σ0 ms σ Hn Hstart Hrun)
    as [(_ & Hinv & _) _].
  split.
  - intros i pc next Hpc Hnd. simpl. rewrite Hpc.
    destruct pc as [|element|]; [| |done]; simpl.
    + rewrite Hstop. by eexists.
    + rewrite Hstop.
      rewrite (SaveIntoQueue_Returns element true _ (or_introl eq_refl)).
      by eexists.
  - intros i pc tid now Hpc Hnd. simpl. rewrite Hpc.
    destruct pc as [| |element|]; [| | |done]; simpl.
    + by rewrite Hstop.
    + rewrite Hstop. unfold GetFromQueue. simpl.
      by destruct (queue (sys_shared σ)).
    + destruct (ProcessNext_inv n (storage (sys_shared σ)) tid now element Hinv)
        as (s' & out & Hnext & _).
      by rewrite Hnext.
Qed.

Lemma stop_unblocks_every_thread_witness :
  1 ≤ 1 ≤ UINT_MAX ∧
  ∃ σ0 σ,
    threads_of_main 1 0 = Some σ0 ∧
    steps [ProducerMove 0 1; ProducerMove 0 0; ProducerMove 1 1;
           ConsumerMove 0 0 0; ConsumerMove 1 0 0; ConsumerMove 0 0 0;
           ConsumerMove 0 7 5000] σ0 = Moves σ ∧
    GetStopToken (storage (sys_shared σ)) = true ∧
    (∀ i pc next, producers σ !! i = Some pc → pc ≠ PDone →
       ∃ σ', step (ProducerMove i next) σ = Moves σ') ∧
    (∀ i pc tid now, consumers σ !! i = Some pc → pc ≠ CDone →
       step (ConsumerMove i tid now) σ ≠ NotEnabled).
Proof.
  assert (1 ≤ 1 ≤ UINT_MAX) as Hn by (by vm_compute).
  split; [exact Hn|]. do 2 eexists.
  split; [reflexivity|]. split; [reflexivity|]. split; [reflexivity|].
  eapply (stop_unblocks_every_thread 1 0 _
            [ProducerMove 0 1; ProducerMove 0 0; ProducerMove 1 1;
             ConsumerMove 0 0 0; ConsumerMove 1 0 0; ConsumerMove 0 0 0;
             ConsumerMove 0 7 5000] _ Hn);
    reflexivity.
Defined.


